(** * GPy: the exponential kernel part and the GPLVM model

    A shallow embedding of [GPy/kern/exponential.py] and
    [GPy/models/GPLVM.py].

    Numbers.  A numpy [float64] is modelled as an extended real: a real
    number, one of the two infinities, or NaN.  The special values follow
    IEEE 754 as numpy applies it (a division by zero yields an infinity or
    NaN and does not raise; [1/inf = 0]; [inf - inf = NaN]).  Rounding,
    overflow, underflow and the sign of zero are not modelled: finite
    arithmetic is exact real arithmetic.  A statement about the value of a
    result carries the hypotheses under which [float64] gives that value
    too (finite data, lengthscales whose powers do not underflow).

    Arrays.  A 1-d array is a list, a 2-d array a list of rows, a 3-d array
    a list of matrices.  Arrays are rectangular in the source; the nested
    list of an array with no rows does not record its other dimensions, so
    a broadcast or a sum over an axis of length zero is not the source's;
    the statements whose outcome depends on it take arrays with at least
    one row.

    Exceptions.  A function that can raise returns a [res]. *)

From Stdlib Require Import Reals Lra ZArith String FunctionalExtensionality.
From stdpp Require Import base tactics option list strings pretty.

Open Scope R_scope.

(** ** Numbers *)

Inductive num : Type :=
| Fin (r : R)
| PInf
| NInf
| NaN.

Definition is_fin (x : num) : Prop :=
  match x with Fin _ => True | _ => False end.

(** The infinity with the sign of [r]; NaN when [r] is zero. *)
Definition inf_of_sign (r : R) : num :=
  if Rlt_dec 0 r then PInf else if Rlt_dec r 0 then NInf else NaN.

Definition fneg (x : num) : num :=
  match x with
  | Fin a => Fin (- a)
  | PInf => NInf
  | NInf => PInf
  | NaN => NaN
  end.

Definition fadd (x y : num) : num :=
  match x, y with
  | NaN, _ | _, NaN => NaN
  | Fin a, Fin b => Fin (a + b)
  | PInf, NInf | NInf, PInf => NaN
  | PInf, _ | _, PInf => PInf
  | NInf, _ | _, NInf => NInf
  end.

Definition fsub (x y : num) : num := fadd x (fneg y).

Definition fmul (x y : num) : num :=
  match x, y with
  | NaN, _ | _, NaN => NaN
  | Fin a, Fin b => Fin (a * b)
  | Fin a, PInf | PInf, Fin a => inf_of_sign a
  | Fin a, NInf | NInf, Fin a => inf_of_sign (- a)
  | PInf, PInf | NInf, NInf => PInf
  | PInf, NInf | NInf, PInf => NInf
  end.

(** numpy's true division: a zero divisor gives an infinity (NaN for 0/0)
    and a warning, never an exception. *)
Definition fdiv (x y : num) : num :=
  match x, y with
  | NaN, _ | _, NaN => NaN
  | Fin a, Fin b => if Req_dec_T b 0 then inf_of_sign a else Fin (a / b)
  | Fin _, (PInf | NInf) => Fin 0
  | PInf, Fin b => if Rlt_dec b 0 then NInf else PInf
  | NInf, Fin b => if Rlt_dec b 0 then PInf else NInf
  | (PInf | NInf), (PInf | NInf) => NaN
  end.

(** [np.square] *)
Definition fsquare (x : num) : num := fmul x x.

(** [x**3] *)
Definition fcube (x : num) : num := fmul (fmul x x) x.

(** [np.sqrt] *)
Definition fsqrt (x : num) : num :=
  match x with
  | Fin a => if Rlt_dec a 0 then NaN else Fin (sqrt a)
  | PInf => PInf
  | NInf | NaN => NaN
  end.

(** [np.exp] *)
Definition fexp (x : num) : num :=
  match x with
  | Fin a => Fin (exp a)
  | PInf => PInf
  | NInf => Fin 0
  | NaN => NaN
  end.

(** [x != y]: NaN differs from everything, itself included. *)
Definition fne (x y : num) : bool :=
  match x, y with
  | Fin a, Fin b => if Req_dec_T a b then false else true
  | PInf, PInf | NInf, NInf => false
  | _, _ => true
  end.

(** [np.sum] of a 1-d array. *)
Definition fsum (v : list num) : num := foldr fadd (Fin 0) v.

(** ** Exceptions *)

Inductive exn : Type := AssertionError | ValueError | IndexError | TypeError.

Inductive res (A : Type) : Type :=
| Ok (a : A)
| Raise (e : exn).
Arguments Ok {A} a.
Arguments Raise {A} e.

#[global] Instance res_ret : MRet res := λ A a, Ok a.
#[global] Instance res_bind : MBind res := λ A B f m,
  match m with Ok a => f a | Raise e => Raise e end.

(** ** Arrays and numpy broadcasting *)

Abbreviation vec := (list num).
Abbreviation mat := (list (list num)).
Abbreviation ten := (list (list (list num))).

(** [A[i,j]] with both indices in range; [None] otherwise. *)
Definition mget {A} (M : list (list A)) (i j : nat) : option A :=
  match M !! i with Some r => r !! j | None => None end.

(** An array of [n] rows of [m] entries. *)
Definition is_mat {A} (n m : nat) (M : list (list A)) : Prop :=
  length M = n ∧ Forall (λ r, length r = m) M.

(** Two axis lengths numpy can broadcast together. *)
Definition bcompat (n m : nat) : Prop := n = m ∨ n = 1%nat ∨ m = 1%nat.

(** A binary ufunc along one axis of a broadcast: equal lengths combine
    pointwise, a length-one operand is repeated, anything else is numpy's
    "operands could not be broadcast together". *)
Definition bvec {A B C} (f : A → B → C) (a : list A) (b : list B)
    : res (list C) :=
  if decide (length a = length b) then Ok (zip_with f a b)
  else match a, b with
       | [x], _ => Ok (f x <$> b)
       | _, [y] => Ok ((λ x, f x y) <$> a)
       | _, _ => Raise ValueError
       end.

(** The same over the two axes of 2-d operands ([f] acts on the entries,
    which are numbers or, for 3-d operands, the vectors of the last
    axis). *)
Definition bmat {A B C} (f : A → B → C) (a : list (list A))
    (b : list (list B)) : res (list (list C)) :=
  rows ← bvec (bvec f) a b;
  mapM (M := res) (λ r, r) rows.

(** In-place forms ([np.add(a, t, t)], [t += a]): the output array [t] is
    also an operand, and the broadcast shape has to be the shape of [t]. *)
Definition bvec_out {A B} (f : A → B → B) (a : list A) (t : list B)
    : res (list B) :=
  if decide (length a = length t) then Ok (zip_with f a t)
  else match a with
       | [x] => Ok (f x <$> t)
       | _ => Raise ValueError
       end.

Definition bmat_out {A B} (f : A → B → B) (a : list (list A))
    (t : list (list B)) : res (list (list B)) :=
  if decide (length a = length t)
  then mapM (λ p, bvec_out f p.1 p.2) (zip a t)
  else match a with
       | [r] => mapM (bvec_out f r) t
       | _ => Raise ValueError
       end.

(** [np.sum] of a 2-d array: every entry. *)
Definition msum (A : mat) : num := fsum (concat A).

(** [A.sum(0)]: the slices along the first axis added up.  An array with
    no slice gives the empty list. *)
Definition sum_axis0 {A} (add : A → A → A) (z : A) (l : list A) : A :=
  match l with
  | [] => z
  | x :: xs => foldl add x xs
  end.

Definition vadd (a b : vec) : vec := zip_with fadd a b.
Definition madd (a b : mat) : mat := zip_with vadd a b.

(** [A.T] and [np.transpose(T, (1,0,2))]: column [j] of the rows. *)
Definition transpose {A} (M : list (list A)) : list (list A) :=
  (λ j, omap (.!! j) M) <$> seq 0 (length (default [] (head M))).

(** [range(start, start + count)] loop threading a state. *)
Fixpoint for_range {St} (body : nat → St → res St) (start count : nat)
    (s : St) : res St :=
  match count with
  | O => Ok s
  | S c => s' ← body start s; for_range body (S start) c s'
  end.

(** [G[i,j] = v] *)
Definition mset (G : mat) (i j : nat) (v : num) : mat :=
  alter (<[j := v]>) i G.

(** ** The exponential kernel part *)

Record exponential : Type := Exponential {
  D : Z;
  ARD : bool;
  Nparam : Z;
  name : string;
  variance : num;
  lengthscale : vec
}.

(** [np.ones(n)] *)
Definition np_ones (n : Z) : res vec :=
  if decide (n < 0)%Z then Raise ValueError
  else Ok (replicate (Z.to_nat n) (Fin 1)).

Definition _get_params (k : exponential) : vec :=
  variance k :: lengthscale k.

Definition _set_params (k : exponential) (x : vec) : res exponential :=
  if decide (Z.of_nat (length x) = Nparam k) then
    match x with
    | x0 :: xs =>
        Ok (Exponential (D k) (ARD k) (Nparam k) (name k) x0 xs)
    | [] => Raise IndexError
    end
  else Raise AssertionError.

(** [__init__].  The attributes [variance] and [lengthscale] exist only
    once [_set_params] has run; the record it is run on carries the
    arguments in their place. *)
Definition init (D : Z) (variance : num) (lengthscale : option vec)
    (ARD : bool) : res exponential :=
  if ARD then
    ls ← match lengthscale with
         | Some ls =>
             if decide (Z.of_nat (length ls) = D) then Ok ls
             else Raise AssertionError
         | None => np_ones D
         end;
    _set_params (Exponential D true (D + 1) "exp_ARD" variance ls)
                (variance :: ls)
  else
    ls ← match lengthscale with
         | Some ls =>
             if decide (length ls = 1%nat) then Ok ls
             else Raise AssertionError
         | None => np_ones 1
         end;
    _set_params (Exponential D false 2 "exp" variance ls) (variance :: ls).

(** [X[:,None,:] - X2[None,:,:]] *)
Definition outer_sub (X X2 : mat) : res ten :=
  mapM (λ x, mapM (λ y, bvec fsub x y) X2) X.

(** A 3-d array combined with a 1-d array along the last axis. *)
Definition tvec (f : num → num → num) (T : ten) (v : vec) : res ten :=
  mapM (mapM (λ r, bvec f r v)) T.

(** [np.sqrt(np.sum(np.square((X[:,None,:]-X2[None,:,:])/self.lengthscale),-1))] *)
Definition scaled_dist (k : exponential) (X X2 : mat) : res mat :=
  d ← outer_sub X X2;
  q ← tvec fdiv d (lengthscale k);
  Ok (fmap (M := list) (fmap (M := list) (λ r, fsqrt (fsum (fsquare <$> r)))) q).

Definition K (k : exponential) (X : mat) (X2 : option mat) (target : mat)
    : res mat :=
  let X2 := default X X2 in
  dist ← scaled_dist k X X2;
  bmat_out fadd
    (fmap (M := list) (fmap (M := list)
       (λ d, fmul (variance k) (fexp (fneg d)))) dist)
    target.

Definition Kdiag (k : exponential) (X : mat) (target : vec) : vec :=
  (λ t, fadd t (variance k)) <$> target.

(** [1./np.where(dist!=0.,dist,np.inf)] on one entry *)
Definition inv_guard (d : num) : num :=
  fdiv (Fin 1) (if fne d (Fin 0) then d else PInf).

(** [np.square(X[:,None,:]-X2[None,:,:])/self.lengthscale**3] *)
Definition dist2M (k : exponential) (X X2 : mat) : res ten :=
  d ← outer_sub X X2;
  tvec fdiv (fmap (M := list) (fmap (M := list) (fmap (M := list) fsquare)) d)
       (fcube <$> lengthscale k).

(** The array [dl*partial[:,:,None]] of the ARD branch of [dK_dtheta]:
    entry [(i,j,d)] is what the pair of rows [(i,j)] adds to
    [target[1+d]]. *)
Definition dl_partial_ARD (k : exponential) (partial : mat) (dist : mat)
    (d2 : ten) : res ten :=
  let invdist := fmap (M := list) (fmap (M := list) inv_guard) dist in
  let dvar := fmap (M := list) (fmap (M := list) (λ d, fexp (fneg d))) dist in
  let dl :=
    zip_with (zip_with (λ (p : num * vec) (iv : num),
                          (λ x, fmul (fmul p.1 x) iv) <$> p.2))
      (zip_with (zip_with (λ dv (r : vec), (fmul (variance k) dv, r))) dvar d2)
      invdist in
  bmat (λ (r : vec) (p : num), (λ x, fmul x p) <$> r) dl partial.

(** The array [dl*partial] of the other branch: entry [(i,j)] is what the
    pair adds to [target[1]]. *)
Definition dl_partial (k : exponential) (partial : mat) (dist : mat)
    (d2 : ten) : res mat :=
  let invdist := fmap (M := list) (fmap (M := list) inv_guard) dist in
  let dvar := fmap (M := list) (fmap (M := list) (λ d, fexp (fneg d))) dist in
  let dl :=
    zip_with (zip_with fmul)
      (zip_with (zip_with (λ dv (r : vec), fmul (fmul (variance k) dv) (fsum r)))
         dvar d2)
      invdist in
  bmat fmul dl partial.

(** [target[i]] *)
Definition index (target : vec) (i : nat) : res num :=
  match target !! i with
  | Some t => Ok t
  | None => Raise IndexError
  end.

(** [target[i] += v] *)
Definition add_at (target : vec) (i : nat) (v : num) : res vec :=
  match target !! i with
  | Some t => Ok (<[i := fadd t v]> target)
  | None => Raise IndexError
  end.

(** In [target[i] += e] Python reads [target[i]] before it evaluates [e]:
    the read comes before the product with [partial].  A raised exception
    discards the target; the writes that preceded it are not
    represented. *)
Definition dK_dtheta (k : exponential) (partial : mat) (X : mat)
    (X2 : option mat) (target : vec) : res vec :=
  let X2 := default X X2 in
  dist ← scaled_dist k X X2;
  d2 ← dist2M k X X2;
  let dvar := fmap (M := list) (fmap (M := list) (λ d, fexp (fneg d))) dist in
  t0 ← index target 0;
  dp ← bmat fmul dvar partial;
  let target := <[0%nat := fadd t0 (msum dp)]> target in
  if ARD k then
    t ← dl_partial_ARD k partial dist d2;
    tl ← bvec_out (λ a t, fadd t a)
           (sum_axis0 vadd [] (sum_axis0 madd [] t)) (drop 1 target);
    Ok (take 1 target ++ tl)
  else
    t1 ← index target 1;
    m ← dl_partial k partial dist d2;
    Ok (<[1%nat := fadd t1 (msum m)]> target).

(** [np.sum(partial)] adds up every entry, whatever the shape of
    [partial]; a 1-d [partial] is the case of one row. *)
Definition dKdiag_dtheta (k : exponential) (partial : mat) (X : mat)
    (target : vec) : res vec :=
  add_at target 0 (msum partial).

(** The array [dK_dX*partial.T[:,:,None]] of [dK_dX]: entry [(j,i,d)] is
    what the pair of rows [(i,j)] adds to [target[i,d]]. *)
Definition dK_dX_terms (k : exponential) (partial : mat) (X X2 : mat)
    : res ten :=
  dist ← scaled_dist k X X2;
  d ← outer_sub X X2;
  q ← tvec fdiv d (fsquare <$> lengthscale k);
  let ddist_dX :=
    zip_with (zip_with (λ (r : vec) (ds : num),
                          (λ x, fdiv x (if fne ds (Fin 0) then ds else PInf))
                            <$> r)) q dist in
  let inner :=
    zip_with (zip_with (λ (ds : num) (r : vec),
                          fmul (fmul (variance k) (fexp (fneg ds))) <$> r))
      dist ddist_dX in
  let dK_dX := fmap (M := list) (fmap (M := list) (fmap (M := list) fneg))
                 (transpose inner) in
  bmat (λ (r : vec) (p : num), (λ x, fmul x p) <$> r)
       dK_dX (transpose partial).

Definition dK_dX (k : exponential) (partial : mat) (X : mat)
    (X2 : option mat) (target : mat) : res mat :=
  let X2 := default X X2 in
  t ← dK_dX_terms k partial X X2;
  bmat_out (λ a t, fadd t a) (sum_axis0 madd [] t) target.

Definition dKdiag_dX (k : exponential) (X : mat) (target : mat) : mat :=
  target.

(** ** The Gram matrix of a family of functions *)

Section Gram.
(** [integrate.quad(f, lower, upper)[0]]: scipy's adaptive quadrature,
    an unspecified function of the integrand and the bounds. *)
Variable quad : (num → num) → num → num → num.

(** The closure [L]: [1./self.lengthscale*F[i](x) + F1[i](x)] with the
    one lengthscale [l] of a one-dimensional kernel. *)
Definition L_op (l : num) (f f1 : num → num) (x : num) : num :=
  fadd (fmul (fdiv (Fin 1) l) (f x)) (f1 x).

(** The integral of one pair.  [F1[i]] raises when [F1] is too short;
    [L] returns an array as long as the lengthscale, which [quad] accepts
    as a number only when it has one element. *)
Definition Gram_entry (k : exponential) (F F1 : list (num → num))
    (lower upper : num) (i j : nat) : res num :=
  match F !! i, F1 !! i, F !! j, F1 !! j with
  | Some fi, Some f1i, Some fj, Some f1j =>
      match lengthscale k with
      | [l] =>
          Ok (quad (λ x, fmul (L_op l fi f1i x) (L_op l fj f1j x))
                lower upper)
      | _ => Raise TypeError
      end
  | _, _, _, _ => Raise IndexError
  end.

(** The two nested loops filling [G]. *)
Definition Gram_loop (k : exponential) (F F1 : list (num → num))
    (lower upper : num) : res mat :=
  let n := length F in
  for_range (λ i G,
    for_range (λ j G,
      v ← Gram_entry k F F1 lower upper i j;
      Ok (mset (mset G i j v) j i v)) i (n - i) G)
    0 n (replicate n (replicate n (Fin 0))).

Definition Gram_matrix (k : exponential) (F F1 : list (num → num))
    (lower upper : num) : res mat :=
  if decide (D k = 1%Z) then
    G ← Gram_loop k F F1 lower upper;
    let Flower := (λ f, f lower) <$> F in
    let c := (λ l, fdiv (fdiv l (Fin 2)) (variance k)) <$> lengthscale k in
    cG ← mapM (λ r, bvec fmul c r) G;
    Ok (madd cG
          ((λ a, (λ b, fmul (fdiv (Fin 1) (variance k)) (fmul a b))
                   <$> Flower) <$> Flower))
  else Raise AssertionError.
End Gram.

(** ** GPLVM *)

(** ['X_%i_%i'%(n,q)] *)
Definition X_name (n q : nat) : string :=
  ("X_" ++ pretty n ++ "_" ++ pretty q)%string.

Section GPLVM.
(** The composite kernel (class [kern]) and the base model
    [GP_regression] are collaborators: the kernel is an abstract object
    with the four methods the model calls, and [self.dL_dK()] is a
    function of the model's state. *)
Variable kern_t : Type.
Variable _get_param_names_transformed : kern_t → list string.
Variable _get_params_transformed : kern_t → vec.
Variable kern_dK_dtheta : kern_t → mat → mat → vec.
Variable kern_dK_dX : kern_t → mat → mat → mat.

Record GPLVM : Type := {
  N : nat;
  Q : nat;
  X : mat;
  kern : kern_t
}.

Variable dL_dK : GPLVM → mat.

(** [X.flatten()] *)
Definition flatten (A : mat) : vec := concat A.

Definition GPLVM_get_param_names (m : GPLVM) : list string :=
  concat ((λ q, (λ n, X_name n q) <$> seq 0 (N m)) <$> seq 0 (Q m))
  ++ _get_param_names_transformed (kern m).

Definition GPLVM_get_params (m : GPLVM) : vec :=
  flatten (X m) ++ _get_params_transformed (kern m).

Definition _log_likelihood_gradients (m : GPLVM) : vec :=
  let dL_dK := dL_dK m in
  let dL_dtheta := kern_dK_dtheta (kern m) dL_dK (X m) in
  let dL_dX :=
    fmap (M := list) (fmap (M := list) (fmul (Fin 2)))
      (kern_dK_dX (kern m) dL_dK (X m)) in
  flatten dL_dX ++ dL_dtheta.
End GPLVM.

(** ** Vocabulary of the statements *)

(** A lengthscale the distance can be divided by: not zero and not NaN. *)
Definition scale_ok (l : num) : Prop :=
  match l with
  | Fin a => a ≠ 0
  | PInf | NInf => True
  | NaN => False
  end.




(** Two finite numbers within [tol] of each other. *)
Definition close (tol : R) (x y : num) : Prop :=
  match x, y with
  | Fin a, Fin b => Rabs (a - b) <= tol
  | _, _ => False
  end.

(** The scaled distance of two rows of the same length, when the
    lengthscale broadcasts against them. *)
Definition rowdist (ls : vec) (x y : vec) : res num :=
  d ← bvec fsub x y;
  q ← bvec fdiv d ls;
  Ok (fsqrt (fsum (fsquare <$> q))).

(** The matrix of the concrete scenario. *)
Definition K_expected : mat :=
  [[Fin 1; Fin (exp (-1)); Fin (exp (-3))];
   [Fin (exp (-1)); Fin 1; Fin (exp (-2))];
   [Fin (exp (-3)); Fin (exp (-2)); Fin 1]].

(** [_set_params] called with each vector of [vs] in turn. *)
Fixpoint set_params_seq (k : exponential) (vs : list vec)
    : res exponential :=
  match vs with
  | [] => Ok k
  | v :: vs => k' ← _set_params k v; set_params_seq k' vs
  end.

(** The value of a computation that does not raise. *)
Definition res_get {A} (d : A) (m : res A) : A :=
  match m with Ok a => a | Raise _ => d end.

(** What the broadcasts of the three kernel functions do for one pair of
    rows: the difference [x - y], transformed by [h], combined with the
    vector [v] along the last axis. *)
Definition pair_op (f : num → num → num) (h : vec → vec) (v : vec)
    (x y : vec) : res vec :=
  d ← bvec fsub x y; bvec f (h d) v.

(** A model of two observations in two latent dimensions, over a kernel
    without parameters, and collaborators that return constants. *)
Definition example_model : GPLVM unit :=
  Build_GPLVM unit 2 2 [[Fin 1; Fin 2]; [Fin 3; Fin 4]] tt.

(** The shape the constructor gives a kernel and [_set_params] keeps:
    [Nparam] is 2 without ARD and [D+1] with it, and the lengthscale has
    [Nparam - 1] entries. *)
Definition kernel_wf (k : exponential) : Prop :=
  Nparam k = (if ARD k then D k + 1 else 2)%Z ∧
  (Z.of_nat (length (lengthscale k)) + 1 = Nparam k)%Z.

(** [L[F_i]], the differential operator of the kernel applied to the
    [i]-th basis function: [L[f](x) = (1/l) f(x) + f'(x)], with the
    derivative taken from [F1]. *)
Definition L_at (l : num) (F F1 : list (num → num)) (i : nat) (x : num)
    : num :=
  match F !! i, F1 !! i with
  | Some f, Some f' => fadd (fmul (fdiv (Fin 1) l) (f x)) (f' x)
  | _, _ => NaN
  end.

(** [G_integral[i,j]]: the quadrature of [L[F_i] * L[F_j]]. *)
Definition G_integral (quad : (num → num) → num → num → num) (l : num)
    (F F1 : list (num → num)) (lower upper : num) (i j : nat) : num :=
  quad (λ x, fmul (L_at l F F1 i x) (L_at l F F1 j x)) lower upper.

(** What a pair of rows [(x,y)] contributes to the two entries of the
    gradient of a kernel without ARD, per unit of [partial]: [exp(-r)] to
    the variance entry, [variance*exp(-r)*sum((x-y)^2/l^3)*(1/r)] (with the
    guarded reciprocal) to the lengthscale entry. *)
Definition dvar_pair (k : exponential) (x y : vec) : num :=
  fexp (fneg (res_get NaN (rowdist (lengthscale k) x y))).

Definition dl_pair (k : exponential) (x y : vec) : num :=
  let r := res_get NaN (rowdist (lengthscale k) x y) in
  fmul (fmul (fmul (variance k) (fexp (fneg r)))
          (fsum (res_get [] (bvec fdiv (fsquare <$> zip_with fsub x y)
                                       (fcube <$> lengthscale k)))))
       (inv_guard r).

(** [sum(A*partial)] for the array [A] of a function of the pairs of
    rows. *)
Definition pair_sum (g : vec → vec → num) (X X2 partial : mat) : num :=
  msum (zip_with (zip_with fmul) ((λ x, g x <$> X2) <$> X) partial).

(** ** The rest of the two classes *)

(** [exponential._get_param_names] *)
Definition _get_param_names (k : exponential) : list string :=
  if decide (Nparam k = 2%Z) then ["variance"; "lengthscale"]%string
  else "variance"%string ::
       ((λ i : nat, ("lengthscale_" ++ pretty i)%string)
          <$> seq 0 (length (lengthscale k))).

(** [v.reshape(n, q)]: [n] rows of [q] entries, in order; numpy raises
    [ValueError] when the size is not [n*q]. *)
Fixpoint chunks (q n : nat) (v : vec) : mat :=
  match n with
  | O => []
  | S n' => take q v :: chunks q n' (drop q v)
  end.

Definition reshape (v : vec) (n q : nat) : res mat :=
  if decide (length v = (n * q)%nat) then Ok (chunks q n v)
  else Raise ValueError.

Section GPLVM_set.
(** [GP_regression._set_params] is the base model's: a collaborator. *)
Variable kern_t : Type.
Variable GP_regression_set_params :
  GPLVM kern_t → vec → res (GPLVM kern_t).

(** [GPLVM._set_params].  [self.X.size] is read twice: on the old [X] for
    the slice that is reshaped, on the new one for the rest. *)
Definition GPLVM_set_params (m : GPLVM kern_t) (x : vec)
    : res (GPLVM kern_t) :=
  X' ← reshape (take (length (flatten (X kern_t m))) x) (N kern_t m)
        (Q kern_t m);
  let m' := Build_GPLVM kern_t (N kern_t m) (Q kern_t m) X' (kern kern_t m) in
  GP_regression_set_params m' (drop (length (flatten X')) x).
End GPLVM_set.


(** * Properties *)

(** ** Arithmetic of the number model *)

(** Case analysis on the comparisons a number operation makes. *)
Ltac num_cases :=
  simpl; unfold inf_of_sign;
  repeat match goal with
    | |- context [Rlt_dec ?a ?b] => destruct (Rlt_dec a b)
    | |- context [Req_dec_T ?a ?b] => destruct (Req_dec_T a b)
    end;
  first [reflexivity | lra | (f_equal; lra) | (f_equal; field; lra) | idtac].

Lemma fdiv_fin (a b : R) : b ≠ 0 → fdiv (Fin a) (Fin b) = Fin (a / b).
Proof. intros Hb. simpl. destruct (Req_dec_T b 0); [lra | reflexivity]. Qed.

Lemma fsqrt_fin (a : R) : 0 <= a → fsqrt (Fin a) = Fin (sqrt a).
Proof. intros Ha. simpl. destruct (Rlt_dec a 0); [lra | reflexivity]. Qed.

Lemma fsqrt_sqr (a : R) : 0 <= a → fsqrt (Fin (a * a)) = Fin a.
Proof.
  intros Ha. rewrite fsqrt_fin by nra. by rewrite sqrt_square.
Qed.


Lemma fne_fin_ne (a b : R) : a ≠ b → fne (Fin a) (Fin b) = true.
Proof. intros Hne. simpl. by destruct (Req_dec_T a b). Qed.

Lemma fadd_comm (x y : num) : fadd x y = fadd y x.
Proof. destruct x, y; simpl; try reflexivity. f_equal; lra. Qed.

Lemma fadd_0_r (x : num) : fadd x (Fin 0) = x.
Proof. destruct x; simpl; try reflexivity. f_equal; lra. Qed.

Lemma fadd_0_l (x : num) : fadd (Fin 0) x = x.
Proof. by rewrite fadd_comm, fadd_0_r. Qed.

Lemma fmul_comm (x y : num) : fmul x y = fmul y x.
Proof. destruct x, y; simpl; try reflexivity. f_equal; lra. Qed.

Lemma fmul_1_r (x : num) : fmul x (Fin 1) = x.
Proof. destruct x; num_cases. Qed.

Lemma fneg_fadd (x y : num) : fneg (fadd x y) = fadd (fneg x) (fneg y).
Proof. destruct x, y; simpl; try reflexivity. f_equal; lra. Qed.

Lemma fneg_fneg (x : num) : fneg (fneg x) = x.
Proof. destruct x; simpl; try reflexivity. f_equal; lra. Qed.

Lemma fsub_swap (x y : num) : fsub y x = fneg (fsub x y).
Proof.
  unfold fsub. by rewrite fneg_fadd, fneg_fneg, fadd_comm.
Qed.

Lemma inf_of_sign_opp (a : R) : inf_of_sign (- a) = fneg (inf_of_sign a).
Proof.
  unfold inf_of_sign.
  destruct (Rlt_dec 0 (- a)), (Rlt_dec (- a) 0), (Rlt_dec 0 a),
    (Rlt_dec a 0); simpl; try reflexivity; lra.
Qed.

Lemma fdiv_fneg_l (x y : num) : fdiv (fneg x) y = fneg (fdiv x y).
Proof.
  destruct x as [a| | |], y as [b| | |]; simpl; try reflexivity.
  - destruct (Req_dec_T b 0); [apply inf_of_sign_opp|].
    simpl. f_equal. by field.
  - f_equal; lra.
  - f_equal; lra.
  - by destruct (Rlt_dec b 0).
  - by destruct (Rlt_dec b 0).
Qed.

Lemma fsquare_fneg (x : num) : fsquare (fneg x) = fsquare x.
Proof. destruct x; simpl; try reflexivity. f_equal; lra. Qed.

(** The contribution of one coordinate to the squared distance does not
    depend on the order of the two points. *)
Lemma scaled_sq_swap (x y l : num) :
  fsquare (fdiv (fsub y x) l) = fsquare (fdiv (fsub x y) l).
Proof. by rewrite fsub_swap, fdiv_fneg_l, fsquare_fneg. Qed.

(** ** The exception monad and [mapM] *)

Lemma bind_Ok {A B} (m : res A) (f : A → res B) (b : B) :
  m ≫= f = Ok b ↔ ∃ a, m = Ok a ∧ f a = Ok b.
Proof.
  destruct m as [a|e]; simpl; split.
  - intros H. by exists a.
  - by intros (a' & [= ->] & H).
  - intros H. discriminate H.
  - intros (a' & H & _). discriminate H.
Qed.

Lemma mapM_Ok {A B} (f : A → res B) (l : list A) (k : list B) :
  mapM f l = Ok k ↔ Forall2 (λ x y, f x = Ok y) l k.
Proof.
  revert k. induction l as [|x l IH]; intros k; simpl.
  - split.
    + intros [= <-]. constructor.
    + intros H. by inversion H.
  - split.
    + intros H. apply bind_Ok in H as (y & Hy & H).
      apply bind_Ok in H as (k' & Hk' & [= <-]).
      constructor; [done|]. by apply IH.
    + intros H. inversion H as [|? y ? k' Hy Hk']; subst.
      apply bind_Ok. exists y. split; [done|].
      apply bind_Ok. exists k'. split; [by apply IH|done].
Qed.

(** A function that never raises maps like [fmap]. *)
Lemma mapM_Ok_fmap {A B} (f : A → res B) (g : A → B) (l : list A) :
  Forall (λ x, f x = Ok (g x)) l → mapM f l = Ok (g <$> l).
Proof.
  intros H. apply mapM_Ok. induction H; simpl; by constructor.
Qed.

(** ** Broadcasting *)

Lemma bvec_same {A B C} (f : A → B → C) (a : list A) (b : list B) :
  length a = length b → bvec f a b = Ok (zip_with f a b).
Proof. intros H. unfold bvec. by rewrite decide_True. Qed.

Lemma bvec_is_Ok {A B C} (f : A → B → C) (a : list A) (b : list B) :
  bcompat (length a) (length b) → ∃ c, bvec f a b = Ok c.
Proof.
  intros H. unfold bvec. case_decide; [by eexists|].
  destruct H as [H|[H|H]]; [done| |].
  - destruct a as [|x [|??]]; try discriminate H. by eexists.
  - destruct b as [|y [|??]]; try discriminate H.
    destruct a as [|x [|??]]; by eexists.
Qed.

(** Whatever the shapes, a property of the entries of both operands goes
    over to the entries of the result. *)
Lemma bvec_Forall {A B C} (f : A → B → C) (P : A → Prop) (Q : B → Prop)
    (R : C → Prop) (a : list A) (b : list B) (c : list C) :
  (∀ x y, P x → Q y → R (f x y)) →
  Forall P a → Forall Q b → bvec f a b = Ok c → Forall R c.
Proof.
  intros Hf Ha Hb. unfold bvec. case_decide as Hlen.
  - intros [= <-]. clear Hlen. revert b Hb.
    induction Ha as [|x a Hx Ha IH]; intros b Hb; [constructor|].
    destruct Hb as [|y b Hy Hb]; simpl; [constructor|].
    constructor; [by apply Hf|by apply IH].
  - destruct a as [|x [|x' a]], b as [|y [|y' b]]; try discriminate;
      intros [= <-].
    all: repeat match goal with
           | H : Forall _ (_ :: _) |- _ => apply Forall_cons in H as [? H]
           end.
    all: repeat (apply Forall_cons; split; [by apply Hf|]).
    all: try apply Forall_nil_2.
    + apply Forall_fmap. eapply Forall_impl; [exact Hb|].
      intros y0 Hy0. by apply Hf.
    + apply Forall_fmap. eapply Forall_impl; [exact Ha|].
      intros x0 Hx0. by apply Hf.
Qed.

(** Swapping the operands of a broadcast. *)
Lemma bvec_flip {A B C} (f : A → B → C) (a : list A) (b : list B) :
  bvec (λ y x, f x y) b a = bvec f a b.
Proof.
  unfold bvec. case_decide as H1; case_decide as H2; try congruence.
  - f_equal. clear H1 H2. revert b.
    induction a as [|x a IH]; intros [|y b]; simpl; try done.
    by rewrite IH.
  - destruct a as [|x [|x' a]], b as [|y [|y' b]]; simpl in *; try done.
Qed.

Lemma bvec_out_same {A B} (f : A → B → B) (a : list A) (t : list B) :
  length a = length t → bvec_out f a t = Ok (zip_with f a t).
Proof. intros H. unfold bvec_out. by rewrite decide_True. Qed.

Lemma bmat_out_same {A B} (f : A → B → B) (n m : nat) (a : list (list A))
    (t : list (list B)) :
  is_mat n m a → is_mat n m t →
  bmat_out f a t = Ok (zip_with (zip_with f) a t).
Proof.
  intros [Hn Ha] [Hn' Ht]. unfold bmat_out.
  rewrite decide_True by congruence.
  apply mapM_Ok. clear Hn Hn'. revert t Ht.
  induction Ha as [|r a Hr Ha IH]; intros t Ht; [constructor|].
  destruct Ht as [|s t Hs Ht]; simpl; [constructor|].
  constructor; [|by apply IH]. simpl. apply bvec_out_same. congruence.
Qed.

Lemma bmat_same {A B C} (f : A → B → C) (n m : nat) (a : list (list A))
    (b : list (list B)) :
  is_mat n m a → is_mat n m b →
  bmat f a b = Ok (zip_with (zip_with f) a b).
Proof.
  intros [Hn Ha] [Hn' Hb]. unfold bmat.
  rewrite bvec_same by congruence. simpl.
  apply mapM_Ok. clear Hn Hn'. revert b Hb.
  induction Ha as [|r a Hr Ha IH]; intros b Hb; [constructor|].
  destruct Hb as [|s b Hs Hb]; simpl; [constructor|].
  constructor; [|by apply IH]. apply bvec_same. congruence.
Qed.

(** ** Entries of matrices *)

Lemma mget_lookup {A} (M : list (list A)) (i j : nat) (r : list A) :
  M !! i = Some r → mget M i j = r !! j.
Proof. intros H. unfold mget. by rewrite H. Qed.

Lemma mget_fmap {A B} (f : A → B) (M : list (list A)) (i j : nat) :
  mget (fmap (M := list) (fmap (M := list) f) M) i j = f <$> mget M i j.
Proof.
  unfold mget. rewrite list_lookup_fmap.
  destruct (M !! i) as [r|]; simpl; [|done]. by rewrite list_lookup_fmap.
Qed.

Lemma mget_zip_with {A B C} (f : A → B → C) (M : list (list A))
    (M' : list (list B)) (i j : nat) :
  mget (zip_with (zip_with f) M M') i j =
    match mget M i j, mget M' i j with
    | Some a, Some b => Some (f a b)
    | _, _ => None
    end.
Proof.
  unfold mget. rewrite lookup_zip_with.
  destruct (M !! i) as [r|]; simpl; [|done].
  destruct (M' !! i) as [s|]; simpl.
  - rewrite lookup_zip_with.
    destruct (r !! j); simpl; [|done]. by destruct (s !! j).
  - by destruct (r !! j).
Qed.

Lemma mget_outer {A B C} (g : A → B → C) (X : list A) (X2 : list B)
    (i j : nat) :
  mget ((λ x, g x <$> X2) <$> X) i j =
    match X !! i, X2 !! j with
    | Some x, Some y => Some (g x y)
    | _, _ => None
    end.
Proof.
  unfold mget. rewrite list_lookup_fmap.
  destruct (X !! i) as [x|]; simpl; [|done].
  rewrite list_lookup_fmap. by destruct (X2 !! j).
Qed.

Lemma mget_is_mat {A} (n m : nat) (M : list (list A)) (i j : nat) :
  is_mat n m M → (i < n)%nat → (j < m)%nat → is_Some (mget M i j).
Proof.
  intros [Hn HM] Hi Hj. unfold mget.
  destruct (lookup_lt_is_Some_2 M i) as [r Hr]; [lia|]. rewrite Hr.
  apply lookup_lt_is_Some_2.
  rewrite Forall_lookup in HM. by rewrite (HM _ _ Hr).
Qed.

Lemma mget_None_is_mat {A} (n m : nat) (M : list (list A)) (i j : nat) :
  is_mat n m M → ¬ ((i < n)%nat ∧ (j < m)%nat) → mget M i j = None.
Proof.
  intros [Hn HM] Hij. unfold mget.
  destruct (M !! i) as [r|] eqn:Hr; [|done].
  apply lookup_ge_None_2.
  rewrite Forall_lookup in HM. rewrite (HM _ _ Hr).
  apply lookup_lt_Some in Hr. lia.
Qed.

Lemma is_mat_zip_with {A B C} (f : A → B → C) (n m : nat)
    (M : list (list A)) (M' : list (list B)) :
  is_mat n m M → is_mat n m M' → is_mat n m (zip_with (zip_with f) M M').
Proof.
  intros [Hn HM] [Hn' HM']. split.
  - rewrite length_zip_with. lia.
  - clear Hn Hn'. revert M' HM'.
    induction HM as [|r M Hr HM IH]; intros M' HM'; [constructor|].
    destruct HM' as [|s M' Hs HM']; simpl; [constructor|].
    constructor; [|by apply IH]. rewrite length_zip_with. lia.
Qed.

Lemma is_mat_fmap {A B} (f : A → B) (n m : nat) (M : list (list A)) :
  is_mat n m M → is_mat n m (fmap (M := list) (fmap (M := list) f) M).
Proof.
  intros [Hn HM]. split; [by rewrite length_fmap|].
  apply Forall_fmap. eapply Forall_impl; [exact HM|].
  intros r Hr. simpl. by rewrite length_fmap.
Qed.

Lemma is_mat_outer {A B C} (g : A → B → C) (X : list A) (X2 : list B) :
  is_mat (length X) (length X2) ((λ x, g x <$> X2) <$> X).
Proof.
  split; [by rewrite length_fmap|].
  apply Forall_fmap, Forall_forall. intros x _. simpl.
  by rewrite length_fmap.
Qed.

(** ** The pairwise broadcasts of the kernel *)

Lemma bvec_ext {A B C} (f g : A → B → C) (a : list A) (b : list B) :
  (∀ x y, f x y = g x y) → bvec f a b = bvec g a b.
Proof.
  intros Hfg. unfold bvec. case_decide.
  - f_equal. revert b H. induction a as [|x a IH]; intros [|y b] H;
      simpl; try done. rewrite Hfg. f_equal. apply IH. by injection H.
  - destruct a as [|x [|x' a]], b as [|y [|y' b]]; try done; f_equal;
      apply list_fmap_ext; intros; apply Hfg.
Qed.

Lemma bvec_fmap_l {A A' B C} (f : A' → B → C) (h : A → A') (a : list A)
    (b : list B) :
  bvec f (h <$> a) b = bvec (λ x y, f (h x) y) a b.
Proof.
  unfold bvec. rewrite length_fmap. case_decide.
  - f_equal. revert b H. induction a as [|x a IH]; intros [|y b] H;
      simpl; try done. f_equal. apply IH. by injection H.
  - destruct a as [|x [|x' a]], b as [|y [|y' b]]; try done; simpl;
      f_equal; f_equal; by rewrite <- list_fmap_compose.
Qed.

Lemma bvec_post {A B C C'} (f : A → B → C) (g : C → C') (a : list A)
    (b : list B) (c : list C) :
  bvec f a b = Ok c → bvec (λ x y, g (f x y)) a b = Ok (g <$> c).
Proof.
  unfold bvec. case_decide.
  - intros [= <-]. f_equal. revert b H.
    induction a as [|x a IH]; intros [|y b] H; simpl; try done.
    f_equal. apply IH. by injection H.
  - destruct a as [|x [|x' a]], b as [|y [|y' b]]; try done;
      intros [= <-]; simpl; f_equal; f_equal;
      by rewrite <- list_fmap_compose.
Qed.

Lemma bvec_Raise_post {A B C C'} (f : A → B → C) (g : A → B → C')
    (a : list A) (b : list B) (e : exn) :
  bvec f a b = Raise e → bvec g a b = Raise e.
Proof.
  unfold bvec. case_decide; [done|].
  destruct a as [|x [|x' a]], b as [|y [|y' b]]; intros He;
    first [discriminate He | by injection He as <-].
Qed.

Lemma bvec_length_same {A B C} (f : A → B → C) (a : list A) (b : list B)
    (c : list C) :
  length a = length b → bvec f a b = Ok c → length c = length a.
Proof.
  intros H. rewrite bvec_same by done. intros [= <-].
  rewrite length_zip_with. lia.
Qed.

(** The distance of two rows does not depend on their order. *)
Lemma rowdist_sym (ls x y : vec) : rowdist ls y x = rowdist ls x y.
Proof.
  unfold rowdist.
  assert (Hflip : bvec fsub y x = bvec (λ a b, fsub b a) x y)
    by exact (bvec_flip (λ a b, fsub b a) x y).
  rewrite Hflip. clear Hflip.
  rewrite (bvec_ext (λ a b, fsub b a) (λ a b, fneg (fsub a b)))
    by (intros; apply fsub_swap).
  destruct (bvec fsub x y) as [d|e] eqn:Hd.
  - rewrite (bvec_post _ fneg _ _ _ Hd). simpl.
    rewrite bvec_fmap_l.
    rewrite (bvec_ext _ (λ a l, fneg (fdiv a l)))
      by (intros; apply fdiv_fneg_l).
    destruct (bvec fdiv d ls) as [q|e] eqn:Hq.
    + rewrite (bvec_post _ fneg _ _ _ Hq). simpl.
      rewrite <- list_fmap_compose.
      do 3 f_equal. apply list_fmap_ext. intros _ z _. simpl.
      apply fsquare_fneg.
    + by rewrite (bvec_Raise_post _ _ _ _ _ Hq).
  - by rewrite (bvec_Raise_post _ _ _ _ _ Hd).
Qed.

Lemma pair_op_is_Ok (f : num → num → num) (h : vec → vec) (v x y : vec) :
  (∀ d, length (h d) = length d) →
  length x = length y → bcompat (length x) (length v) →
  ∃ q, pair_op f h v x y = Ok q.
Proof.
  intros Hh Hxy Hv. unfold pair_op. rewrite bvec_same by done. simpl.
  apply bvec_is_Ok. rewrite Hh, length_zip_with.
  by replace (length x `min` length y)%nat with (length x) by lia.
Qed.

Lemma rowdist_pair_op (ls x y : vec) :
  rowdist ls x y =
    q ← pair_op fdiv (λ d, d) ls x y; Ok (fsqrt (fsum (fsquare <$> q))).
Proof.
  unfold rowdist, pair_op. by destruct (bvec fsub x y).
Qed.

Lemma mapM_fmap_l {A A' B} (f : A' → res B) (h : A → A') (l : list A) :
  mapM f (h <$> l) = mapM (λ x, f (h x)) l.
Proof.
  induction l as [|x l IH]; [done|].
  change (mapM f (h <$> x :: l))
    with (y ← f (h x); k ← mapM f (h <$> l); mret (y :: k)).
  by rewrite IH.
Qed.

(** The two nested broadcasts, pair by pair. *)
Lemma outer_tvec (f : num → num → num) (h : vec → vec) (v : vec)
    (X X2 : mat) :
  (∀ x y, x ∈ X → y ∈ X2 → ∃ q, pair_op f h v x y = Ok q) →
  (d ← outer_sub X X2;
   tvec f (fmap (M := list) (fmap (M := list) h) d) v) =
    Ok ((λ x, (λ y, res_get [] (pair_op f h v x y)) <$> X2) <$> X).
Proof.
  intros Hok. unfold outer_sub.
  rewrite (mapM_Ok_fmap (λ x, mapM (λ y, bvec fsub x y) X2)
             (λ x : vec, fmap (M := list)
                (λ y : vec, res_get ([] : vec) (bvec fsub x y)) X2)).
  - simpl. unfold tvec. rewrite !mapM_fmap_l.
    apply mapM_Ok_fmap, Forall_forall. intros x Hx. simpl.
    rewrite !mapM_fmap_l.
    apply mapM_Ok_fmap, Forall_forall. intros y Hy. simpl.
    destruct (Hok x y Hx Hy) as [q Hq]. rewrite Hq. simpl.
    unfold pair_op in Hq. by destruct (bvec fsub x y).
  - apply Forall_forall. intros x Hx.
    apply mapM_Ok_fmap, Forall_forall. intros y Hy.
    destruct (Hok x y Hx Hy) as [q Hq]. unfold pair_op in Hq.
    by destruct (bvec fsub x y).
Qed.

Lemma fmap2_id {A} (M : list (list A)) :
  fmap (M := list) (fmap (M := list) (λ r : A, r)) M = M.
Proof.
  induction M as [|r M IH]; [done|].
  rewrite fmap_cons, IH. f_equal. apply list_fmap_id.
Qed.

Lemma scaled_dist_eq (k : exponential) (Dx : nat) (X X2 : mat) :
  Forall (λ r, length r = Dx) X → Forall (λ r, length r = Dx) X2 →
  bcompat Dx (length (lengthscale k)) →
  scaled_dist k X X2 =
    Ok ((λ x, (λ y, res_get NaN (rowdist (lengthscale k) x y)) <$> X2)
          <$> X).
Proof.
  intros HX HX2 Hls. unfold scaled_dist.
  rewrite Forall_forall in HX. rewrite Forall_forall in HX2.
  assert (Hok : ∀ x y, x ∈ X → y ∈ X2 →
            ∃ q, pair_op fdiv (λ d, d) (lengthscale k) x y = Ok q).
  { intros x y Hx Hy. apply pair_op_is_Ok; [done| |].
    - by rewrite (HX x), (HX2 y).
    - by rewrite (HX x). }
  pose proof (outer_tvec fdiv (λ d, d) (lengthscale k) X X2 Hok) as H.
  destruct (outer_sub X X2) as [d|e]; simpl in *; [|discriminate H].
  rewrite fmap2_id in H. rewrite H. simpl. f_equal.
  rewrite <- list_fmap_compose.
  apply list_fmap_ext. intros i x Hx. simpl.
  rewrite <- list_fmap_compose.
  apply list_fmap_ext. intros j y Hy. simpl.
  rewrite rowdist_pair_op.
  destruct (Hok x y) as [q Hq]; [by eapply list_elem_of_lookup_2..|].
  by rewrite Hq.
Qed.

(** ** The covariance matrix *)

(** [K] on a target of the shape of the result. *)
Lemma K_eq (k : exponential) (Dx : nat) (X : mat) (T : mat) :
  Forall (λ r, length r = Dx) X →
  bcompat Dx (length (lengthscale k)) →
  is_mat (length X) (length X) T →
  K k X None T =
    Ok (zip_with (zip_with fadd)
          ((λ x, (λ y, fmul (variance k)
                         (fexp (fneg (res_get NaN
                            (rowdist (lengthscale k) x y))))) <$> X) <$> X)
          T).
Proof.
  intros HX Hls HT. unfold K. simpl.
  rewrite (scaled_dist_eq k Dx) by done. simpl.
  rewrite <- list_fmap_compose.
  rewrite (list_fmap_ext _
    (λ x, (λ y, fmul (variance k)
             (fexp (fneg (res_get NaN (rowdist (lengthscale k) x y)))))
          <$> X) X).
  - apply (bmat_out_same _ (length X) (length X)); [|done].
    apply is_mat_outer.
  - intros i x Hx. simpl. by rewrite <- list_fmap_compose.
Qed.

Lemma kentry (a b c : R) :
  0 <= c → a - b = c ∨ a - b = - c →
  fadd (fmul (Fin 1)
          (fexp (fneg (fsqrt (fsum [fsquare (fdiv (fsub (Fin a) (Fin b))
                                               (Fin 1))])))))
       (Fin 0) = Fin (exp (- c)).
Proof.
  intros Hc Hab. unfold fsub, fsum, fsquare. cbn [foldr fneg fadd].
  rewrite fdiv_fin by lra. cbn [fmul fadd].
  replace ((a + - b) / 1 * ((a + - b) / 1) + 0) with (c * c)
    by (destruct Hab; nra).
  rewrite fsqrt_sqr by exact Hc. cbn [fneg fexp fmul fadd]. f_equal. lra.
Qed.

Lemma close_refl (tol a : R) : 0 <= tol → close tol (Fin a) (Fin a).
Proof.
  intros H. unfold close. rewrite Rminus_diag, Rabs_R0. exact H.
Qed.

(** C1.  The kernel built with [D=1], variance 1, lengthscale [1] and no
    ARD, called on [X = [[0],[1],[3]]] without [X2] and with a 3x3 target
    of zeros, leaves in the target the matrix
    [[1, e^-1, e^-3], [e^-1, 1, e^-2], [e^-3, e^-2, 1]]: the entries are
    these numbers, hence within [1e-9] of them. *)
Theorem K_example :
  ∃ k T,
    init 1 (Fin 1) (Some [Fin 1]) false = Ok k ∧
    K k [[Fin 0]; [Fin 1]; [Fin 3]] None (replicate 3 (replicate 3 (Fin 0)))
      = Ok T ∧
    T = K_expected ∧
    Forall2 (Forall2 (close (1 / 1000000000))) T K_expected.
Proof.
  eexists _, K_expected. split; [reflexivity|].
  split; [|split; [reflexivity|]].
  - cbv -[fsub fdiv fmul fadd fsquare fsqrt fexp fneg fsum IZR K_expected].
    rewrite (kentry 0 0 0), (kentry 0 1 1), (kentry 0 3 3), (kentry 1 0 1),
      (kentry 1 1 0), (kentry 1 3 2), (kentry 3 0 3), (kentry 3 1 2),
      (kentry 3 3 0) by lra.
    rewrite Ropp_0, exp_0. unfold K_expected. repeat f_equal; lra.
  - assert (Htol : 0 <= 1 / 1000000000) by lra.
    unfold K_expected.
    repeat (apply Forall2_cons_2;
            [repeat (apply Forall2_cons_2; [by apply close_refl|]);
             apply Forall2_nil_2|]).
    apply Forall2_nil_2.
Qed.

(** C3.  Without [X2], on a symmetric N x N target, [K] returns and
    leaves a symmetric N x N matrix in the target.  Entries are compared as
    values of the number model. *)
Theorem K_symmetric (k : exponential) (Dx : nat) (X : mat) (T : mat) :
  Forall (λ r, length r = Dx) X →
  bcompat Dx (length (lengthscale k)) →
  is_mat (length X) (length X) T →
  (∀ i j, mget T i j = mget T j i) →
  ∃ T', K k X None T = Ok T' ∧
        is_mat (length X) (length X) T' ∧
        ∀ i j, mget T' i j = mget T' j i.
Proof.
  intros HX Hls HT Hsym. eexists. split; [by apply (K_eq k Dx)|].
  split.
  - apply is_mat_zip_with; [apply is_mat_outer|done].
  - intros i j. rewrite !mget_zip_with, !mget_outer, (Hsym i j).
    destruct (X !! i) as [x|], (X !! j) as [y|]; try done.
    by rewrite (rowdist_sym _ y x).
Qed.

Lemma K_symmetric_witness :
  ∃ T', K (Exponential 1 false 2 "exp" (Fin 1) [Fin 1])
          [[Fin 0]; [Fin 1]] None [[Fin 0; Fin 5]; [Fin 5; Fin 0]] = Ok T' ∧
        is_mat 2 2 T' ∧ ∀ i j, mget T' i j = mget T' j i.
Proof.
  apply (K_symmetric _ 1%nat).
  - repeat constructor.
  - by left.
  - split; [done|]. repeat constructor.
  - intros [|[|i]] [|[|j]]; reflexivity.
Defined.

(** ** The diagonal *)

Lemma zip_with_fsub_diag (x : vec) :
  Forall is_fin x → Forall (λ z, z = Fin 0) (zip_with fsub x x).
Proof.
  induction 1 as [|a x Ha Hx IH]; simpl; [constructor|].
  constructor; [|exact IH].
  destruct a as [r| | |]; try contradiction.
  unfold fsub. simpl. f_equal. lra.
Qed.

Lemma fdiv_0_l (l : num) : scale_ok l → fdiv (Fin 0) l = Fin 0.
Proof.
  destruct l as [b| | |]; simpl; try done.
  intros Hb. destruct (Req_dec_T b 0); [contradiction|].
  f_equal. unfold Rdiv. apply Rmult_0_l.
Qed.

Lemma fsum_zeros (v : vec) : Forall (λ z, z = Fin 0) v → fsum v = Fin 0.
Proof.
  induction 1 as [|a v Ha Hv IH]; [reflexivity|].
  unfold fsum in *. simpl. rewrite IH, Ha. simpl. f_equal. lra.
Qed.

(** Two equal finite rows are at distance zero. *)
Lemma rowdist_diag (ls x : vec) :
  Forall is_fin x → Forall scale_ok ls → bcompat (length x) (length ls) →
  rowdist ls x x = Ok (Fin 0).
Proof.
  intros Hx Hls Hc. unfold rowdist.
  rewrite bvec_same by reflexivity. simpl.
  destruct (bvec_is_Ok fdiv (zip_with fsub x x) ls) as [q Hq].
  { rewrite length_zip_with.
    by replace (length x `min` length x)%nat with (length x) by lia. }
  rewrite Hq. simpl. f_equal.
  assert (Hq0 : Forall (λ z, z = Fin 0) q).
  { eapply (bvec_Forall fdiv (λ z, z = Fin 0) scale_ok);
      [|by apply zip_with_fsub_diag|exact Hls|exact Hq].
    intros a l -> Hl. by apply fdiv_0_l. }
  rewrite fsum_zeros.
  - simpl. destruct (Rlt_dec 0 0); [lra|]. by rewrite sqrt_0.
  - apply Forall_fmap. eapply Forall_impl; [exact Hq0|].
    intros z ->. unfold fsquare. simpl. f_equal. lra.
Qed.

Lemma fexp_fneg_0 : fexp (fneg (Fin 0)) = Fin 1.
Proof. simpl. by rewrite Ropp_0, exp_0. Qed.

(** C4.  On targets of zeros, every element [Kdiag] produces is the
    variance, and the diagonal of [K] (without [X2]) is that same vector;
    for inputs of finite numbers and lengthscales that are neither zero nor
    NaN. *)
Theorem Kdiag_variance (k : exponential) (Dx : nat) (X : mat) :
  Forall (λ r, length r = Dx ∧ Forall is_fin r) X →
  Forall scale_ok (lengthscale k) →
  bcompat Dx (length (lengthscale k)) →
  let n := length X in
  Kdiag k X (replicate n (Fin 0)) = replicate n (variance k) ∧
  ∃ T, K k X None (replicate n (replicate n (Fin 0))) = Ok T ∧
       ∀ i, (i < n)%nat →
         mget T i i = Some (variance k) ∧
         mget T i i = Kdiag k X (replicate n (Fin 0)) !! i.
Proof.
  intros HX Hls Hc n.
  assert (Hdiag : Kdiag k X (replicate n (Fin 0)) = replicate n (variance k)).
  { unfold Kdiag. rewrite fmap_replicate. by rewrite fadd_0_l. }
  split; [exact Hdiag|].
  eexists. split.
  - apply (K_eq k Dx); [|done|].
    + eapply Forall_impl; [exact HX|]. by intros r [Hr _].
    + split; [by rewrite length_replicate|].
      apply Forall_replicate. by rewrite length_replicate.
  - intros i Hi.
    assert (Hv : mget
      (zip_with (zip_with fadd)
         ((λ x, (λ y, fmul (variance k)
            (fexp (fneg (res_get NaN (rowdist (lengthscale k) x y)))))
            <$> X) <$> X)
         (replicate n (replicate n (Fin 0)))) i i = Some (variance k)).
    { rewrite mget_zip_with, mget_outer.
      destruct (lookup_lt_is_Some_2 X i Hi) as [x Hx]. rewrite Hx.
      unfold mget. rewrite lookup_replicate_2 by done.
      rewrite lookup_replicate_2 by done.
      rewrite Forall_lookup in HX. destruct (HX i x Hx) as [Hlen Hfin].
      rewrite rowdist_diag; [|done|done|by rewrite Hlen].
      simpl res_get. rewrite fexp_fneg_0, fmul_1_r, fadd_0_r. done. }
    split; [exact Hv|].
    rewrite Hv, Hdiag. by rewrite lookup_replicate_2.
Qed.

Lemma Kdiag_variance_witness :
  let k := Exponential 1 false 2 "exp" (Fin 2) [Fin 1] in
  let X := [[Fin 0]; [Fin 1]] in
  Kdiag k X (replicate 2 (Fin 0)) = replicate 2 (variance k) ∧
  ∃ T, K k X None (replicate 2 (replicate 2 (Fin 0))) = Ok T ∧
       ∀ i, (i < 2)%nat →
         mget T i i = Some (variance k) ∧
         mget T i i = Kdiag k X (replicate 2 (Fin 0)) !! i.
Proof.
  apply (Kdiag_variance _ 1%nat).
  - repeat (apply Forall_cons; split; [split; [reflexivity|]|]);
      try apply Forall_nil_2;
      apply Forall_cons; split; (exact I || apply Forall_nil_2).
  - apply Forall_cons. split; [simpl; lra|apply Forall_nil_2].
  - by left.
Defined.

(** ** Parameters *)

Lemma _set_params_Ok (k : exponential) (x0 : num) (xs : vec) :
  Z.of_nat (length (x0 :: xs)) = Nparam k →
  _set_params k (x0 :: xs) =
    Ok (Exponential (D k) (ARD k) (Nparam k) (name k) x0 xs).
Proof. intros H. unfold _set_params. by rewrite decide_True. Qed.

(** A constructed kernel has at least the variance as parameter, and
    [Nparam] is 2 without ARD and [D+1] with it. *)
Lemma init_Nparam (D0 : Z) (v : num) (ls : option vec) (ard : bool)
    (k : exponential) :
  init D0 v ls ard = Ok k →
  (1 <= Nparam k)%Z ∧ Nparam k = (if ard then D0 + 1 else 2)%Z ∧
  D k = D0 ∧ ARD k = ard ∧ Z.of_nat (length (_get_params k)) = Nparam k.
Proof.
  unfold init. destruct ard.
  - destruct ls as [ls|]; simpl.
    + case_decide as Hl; simpl; [|discriminate].
      unfold _set_params. simpl. case_decide as Hn; [|discriminate].
      intros [= <-]. simpl in *. repeat split; lia.
    + unfold np_ones. case_decide as Hd; simpl; [discriminate|].
      unfold _set_params. simpl. case_decide as Hn; [|discriminate].
      intros [= <-]. simpl in *. rewrite length_replicate in *.
      repeat split; lia.
  - destruct ls as [ls|]; simpl.
    + case_decide as Hl; simpl; [|discriminate].
      unfold _set_params. simpl. case_decide as Hn; [|discriminate].
      intros [= <-]. simpl in *. repeat split; lia.
    + unfold _set_params. simpl. intros [= <-]. simpl. repeat split; lia.
Qed.

Lemma set_params_seq_snoc (k : exponential) (vs : list vec) (v : vec) :
  (1 <= Nparam k)%Z →
  Forall (λ w, Z.of_nat (length w) = Nparam k) (vs ++ [v]) →
  ∃ k', set_params_seq k (vs ++ [v]) = Ok k' ∧ _get_params k' = v ∧
        Nparam k' = Nparam k.
Proof.
  intros Hpos. revert k Hpos.
  induction vs as [|w vs IH]; intros k Hpos Hall; simpl in *.
  - apply Forall_cons in Hall as [Hv _].
    destruct v as [|x0 xs]; [simpl in Hv; lia|].
    rewrite _set_params_Ok by done. simpl. by eexists.
  - apply Forall_cons in Hall as [Hw Hall].
    destruct w as [|x0 xs]; [simpl in Hw; lia|].
    rewrite _set_params_Ok by done. simpl.
    apply (IH (Exponential (D k) (ARD k) (Nparam k) (name k) x0 xs));
      done.
Qed.

(** C5.  On a constructed kernel, [_set_params] with a vector of [Nparam]
    entries followed by [_get_params] returns that vector, after any number
    of earlier [_set_params] calls with vectors of that length; [Nparam] is
    2 without ARD and [D+1] with it. *)
Theorem set_get_params_roundtrip (D0 : Z) (var : num) (ls : option vec)
    (ard : bool) (k : exponential) (vs : list vec) (v : vec) :
  init D0 var ls ard = Ok k →
  Forall (λ w, Z.of_nat (length w) = (if ard then D0 + 1 else 2)%Z)
         (vs ++ [v]) →
  ∃ k', set_params_seq k (vs ++ [v]) = Ok k' ∧ _get_params k' = v.
Proof.
  intros Hk Hall. apply init_Nparam in Hk as (Hpos & HN & _).
  rewrite <- HN in Hall.
  destruct (set_params_seq_snoc k vs v Hpos Hall) as (k' & H1 & H2 & _).
  by exists k'.
Qed.

Lemma set_get_params_roundtrip_witness :
  ∃ k', set_params_seq (Exponential 2 true 3 "exp_ARD" (Fin 1) [Fin 1; Fin 1])
          ([[Fin 5; Fin 6; Fin 7]] ++ [[Fin 2; Fin 3; Fin 4]]) = Ok k' ∧
        _get_params k' = [Fin 2; Fin 3; Fin 4].
Proof.
  apply (set_get_params_roundtrip 2 (Fin 1) None true).
  - reflexivity.
  - repeat (apply Forall_cons; split; [reflexivity|]). apply Forall_nil_2.
Defined.

(** ** The derivatives of the diagonal *)

Lemma add_at_0 (t0 : num) (rest : vec) (v : num) :
  add_at (t0 :: rest) 0 v = Ok (fadd t0 v :: rest).
Proof. reflexivity. Qed.

(** C8.  [dKdiag_dtheta] adds the sum of all entries of [partial] to
    [target[0]] and leaves every other entry ([target[1:]]) as it was;
    [dKdiag_dX] returns its target unchanged. *)
Theorem dKdiag_frame (k : exponential) (partial X : mat) (t0 : num)
    (rest : vec) (target2 : mat) :
  (∃ target', dKdiag_dtheta k partial X (t0 :: rest) = Ok target' ∧
     target' !! 0%nat = Some (fadd t0 (msum partial)) ∧
     drop 1 target' = drop 1 (t0 :: rest) ∧
     length target' = length (t0 :: rest))
  ∧ dKdiag_dX k X target2 = target2.
Proof.
  split; [|reflexivity].
  exists (fadd t0 (msum partial) :: rest). by rewrite <- add_at_0.
Qed.

(** ** Assertions *)

(** C9.  A lengthscale of the wrong shape makes the constructor fail with
    an assertion error, a parameter vector of the wrong size makes
    [_set_params] fail with one, and so does [Gram_matrix] on a kernel
    whose [D] is not 1: each raises, none returns a value. *)
Theorem assertions_fail (quad : (num → num) → num → num → num) (D0 : Z)
    (var : num) (ls ls' x : vec) (k k' : exponential)
    (F F1 : list (num → num)) (lower upper : num) :
  length ls ≠ 1%nat →
  Z.of_nat (length ls') ≠ D0 →
  Z.of_nat (length x) ≠ Nparam k →
  D k' ≠ 1%Z →
  init D0 var (Some ls) false = Raise AssertionError ∧
  init D0 var (Some ls') true = Raise AssertionError ∧
  _set_params k x = Raise AssertionError ∧
  Gram_matrix quad k' F F1 lower upper = Raise AssertionError.
Proof.
  intros H1 H2 H3 H4. repeat split.
  - unfold init. by rewrite decide_False.
  - unfold init. by rewrite decide_False.
  - unfold _set_params. by rewrite decide_False.
  - unfold Gram_matrix. by rewrite decide_False.
Qed.

Lemma assertions_fail_witness :
  init 2 (Fin 1) (Some [Fin 1; Fin 1]) false = Raise AssertionError ∧
  init 2 (Fin 1) (Some [Fin 1]) true = Raise AssertionError ∧
  _set_params (Exponential 1 false 2 "exp" (Fin 1) [Fin 1]) [Fin 1]
    = Raise AssertionError ∧
  Gram_matrix (λ f a b, f a) (Exponential 2 false 2 "exp" (Fin 1) [Fin 1])
    [] [] (Fin 0) (Fin 1) = Raise AssertionError.
Proof.
  apply (assertions_fail (λ f a b, f a) 2 (Fin 1) [Fin 1; Fin 1] [Fin 1]
           [Fin 1] (Exponential 1 false 2 "exp" (Fin 1) [Fin 1])
           (Exponential 2 false 2 "exp" (Fin 1) [Fin 1]) [] [] (Fin 0)
           (Fin 1)); simpl; lia.
Defined.

(** ** GPLVM: the layout of the parameter vector *)

Lemma length_concat_uniform {A} (L : list (list A)) (m : nat) :
  Forall (λ r, length r = m) L → length (concat L) = (length L * m)%nat.
Proof.
  induction 1 as [|r L Hr HL IH]; simpl; [done|].
  rewrite length_app, IH, Hr. lia.
Qed.

(** Row-major position of an entry in the flattened array. *)
Lemma concat_lookup_uniform {A} (L : list (list A)) (m i j : nat) :
  Forall (λ r, length r = m) L → (j < m)%nat →
  concat L !! (i * m + j)%nat = mget L i j.
Proof.
  intros HL Hj. revert i. induction HL as [|r L Hr HL IH]; intros i.
  - unfold mget. simpl. by rewrite !lookup_nil.
  - destruct i as [|i]; simpl.
    + unfold mget. simpl. rewrite lookup_app_l by lia. done.
    + rewrite lookup_app_r by lia.
      replace (m + i * m + j - length r)%nat with (i * m + j)%nat by lia.
      by rewrite IH.
Qed.

Lemma X_names_mget (Nn Qn n q : nat) :
  (n < Nn)%nat → (q < Qn)%nat →
  mget ((λ q, (λ n, X_name n q) <$> seq 0 Nn) <$> seq 0 Qn) q n
    = Some (X_name n q).
Proof.
  intros Hn Hq. unfold mget.
  rewrite list_lookup_fmap, lookup_seq_lt by done. simpl.
  by rewrite list_lookup_fmap, lookup_seq_lt.
Qed.

Lemma X_names_rows (Nn Qn : nat) :
  Forall (λ r, length r = Nn)
    ((λ q, (λ n, X_name n q) <$> seq 0 Nn) <$> seq 0 Qn).
Proof.
  apply Forall_fmap, Forall_forall. intros q _. simpl.
  by rewrite length_fmap, length_seq.
Qed.

Section GPLVM_layout.
Context {kern_t : Type}.
Variable names_t : kern_t → list string.
Variable params_t : kern_t → vec.
Variable kern_dK_dtheta : kern_t → mat → mat → vec.
Variable kern_dK_dX : kern_t → mat → mat → mat.
Variable dL_dK : GPLVM kern_t → mat.

Lemma GPLVM_names_lookup (m : GPLVM kern_t) (n q : nat) :
  (n < N _ m)%nat → (q < Q _ m)%nat →
  GPLVM_get_param_names _ names_t m !! (q * N _ m + n)%nat
    = Some (X_name n q).
Proof.
  intros Hn Hq. unfold GPLVM_get_param_names.
  rewrite lookup_app_l.
  - rewrite (concat_lookup_uniform _ (N _ m)) by
      (done || apply X_names_rows).
    by apply X_names_mget.
  - rewrite (length_concat_uniform _ (N _ m)) by apply X_names_rows.
    rewrite length_fmap, length_seq. nia.
Qed.

Lemma GPLVM_params_lookup (m : GPLVM kern_t) (n q : nat) :
  is_mat (N _ m) (Q _ m) (X _ m) →
  (n < N _ m)%nat → (q < Q _ m)%nat →
  GPLVM_get_params _ params_t m !! (n * Q _ m + q)%nat = mget (X _ m) n q.
Proof.
  intros [HN HX] Hn Hq. unfold GPLVM_get_params, flatten.
  rewrite lookup_app_l.
  - by apply concat_lookup_uniform.
  - rewrite (length_concat_uniform _ (Q _ m)) by done. nia.
Qed.

(** C7.  With more than one observation and more than one latent
    dimension, the names of the latent coordinates come dimension by
    dimension ([X_n_q] at position [q*N + n]) while the values come row by
    row ([X[n,q]] at position [n*Q + q]); so at some position the name is
    that of another entry than the value found there. *)
Theorem names_values_mismatch (m : GPLVM kern_t) :
  (1 < N _ m)%nat → (1 < Q _ m)%nat →
  is_mat (N _ m) (Q _ m) (X _ m) →
  (∀ n q, (n < N _ m)%nat → (q < Q _ m)%nat →
     GPLVM_get_param_names _ names_t m !! (q * N _ m + n)%nat
       = Some (X_name n q) ∧
     GPLVM_get_params _ params_t m !! (n * Q _ m + q)%nat
       = mget (X _ m) n q ∧
     is_Some (mget (X _ m) n q)) ∧
  ∃ k n q n' q',
    GPLVM_get_param_names _ names_t m !! k = Some (X_name n q) ∧
    GPLVM_get_params _ params_t m !! k = mget (X _ m) n' q' ∧
    is_Some (mget (X _ m) n' q') ∧
    X_name n q ≠ X_name n' q'.
Proof.
  intros HN HQ HX. split.
  - intros n q Hn Hq. split; [by apply GPLVM_names_lookup|].
    split; [by apply GPLVM_params_lookup|].
    by apply (mget_is_mat (N _ m) (Q _ m)).
  - exists 1%nat, 1%nat, 0%nat, 0%nat, 1%nat. split; [|split; [|split]].
    + apply (GPLVM_names_lookup m 1 0); lia.
    + replace 1%nat with (0 * Q _ m + 1)%nat at 1 by lia.
      apply GPLVM_params_lookup; [done|lia..].
    + apply (mget_is_mat (N _ m) (Q _ m)); [done|lia..].
    + vm_compute. discriminate.
Qed.

(** C6.  The gradient vector is the flattened latent-coordinate gradient,
    which is twice the kernel's [dK_dX] of [dL_dK], followed by the
    kernel's [dK_dtheta] of the same [dL_dK]; entry by entry it lines up
    with [_get_params]: position [n*Q + q] holds [X[n,q]] and its
    gradient, position [N*Q + t] the [t]-th hyperparameter and its
    gradient. *)
Theorem gradient_layout (m : GPLVM kern_t) :
  is_mat (N _ m) (Q _ m) (X _ m) →
  is_mat (N _ m) (Q _ m) (kern_dK_dX (kern _ m) (dL_dK m) (X _ m)) →
  let g := _log_likelihood_gradients _ kern_dK_dtheta kern_dK_dX dL_dK m in
  let p := GPLVM_get_params _ params_t m in
  let gX := kern_dK_dX (kern _ m) (dL_dK m) (X _ m) in
  let gθ := kern_dK_dtheta (kern _ m) (dL_dK m) (X _ m) in
  take (N _ m * Q _ m) g
    = flatten (fmap (M := list) (fmap (M := list) (fmul (Fin 2))) gX) ∧
  drop (N _ m * Q _ m) g = gθ ∧
  (∀ n q, (n < N _ m)%nat → (q < Q _ m)%nat →
     g !! (n * Q _ m + q)%nat = fmul (Fin 2) <$> mget gX n q ∧
     p !! (n * Q _ m + q)%nat = mget (X _ m) n q) ∧
  (∀ t, g !! (N _ m * Q _ m + t)%nat = gθ !! t ∧
        p !! (N _ m * Q _ m + t)%nat = params_t (kern _ m) !! t).
Proof.
  intros HX HG g p gX gθ.
  assert (HG2 : is_mat (N _ m) (Q _ m)
            (fmap (M := list) (fmap (M := list) (fmul (Fin 2))) gX))
    by by apply is_mat_fmap.
  assert (Hlen : length (flatten
            (fmap (M := list) (fmap (M := list) (fmul (Fin 2))) gX))
            = (N _ m * Q _ m)%nat).
  { unfold flatten. destruct HG2 as [Hn Hr].
    by rewrite (length_concat_uniform _ (Q _ m)), Hn. }
  assert (HlenX : length (flatten (X _ m)) = (N _ m * Q _ m)%nat).
  { unfold flatten. destruct HX as [Hn Hr].
    by rewrite (length_concat_uniform _ (Q _ m)), Hn. }
  unfold g, p, _log_likelihood_gradients, GPLVM_get_params.
  fold gX gθ. repeat split.
  - by rewrite take_app_length'.
  - by rewrite drop_app_length'.
  - rewrite lookup_app_l by (rewrite Hlen; nia).
    unfold flatten. destruct HG2 as [_ Hr].
    rewrite (concat_lookup_uniform _ (Q _ m)) by done.
    apply mget_fmap.
  - by apply GPLVM_params_lookup.
  - rewrite lookup_app_r by (rewrite Hlen; lia). f_equal. lia.
  - rewrite lookup_app_r by (rewrite HlenX; lia). f_equal. lia.
Qed.
End GPLVM_layout.

Lemma names_values_mismatch_witness :
  let m := example_model in
  let names := GPLVM_get_param_names unit (λ _, []) m in
  let params := GPLVM_get_params unit (λ _, []) m in
  (∀ n q, (n < 2)%nat → (q < 2)%nat →
     names !! (q * 2 + n)%nat = Some (X_name n q) ∧
     params !! (n * 2 + q)%nat = mget (X unit m) n q ∧
     is_Some (mget (X unit m) n q)) ∧
  ∃ k n q n' q',
    names !! k = Some (X_name n q) ∧
    params !! k = mget (X unit m) n' q' ∧
    is_Some (mget (X unit m) n' q') ∧
    X_name n q ≠ X_name n' q'.
Proof.
  apply (names_values_mismatch (λ _, []) (λ _, []) example_model).
  - simpl. lia.
  - simpl. lia.
  - split; [reflexivity|].
    repeat (apply Forall_cons; split; [reflexivity|]). apply Forall_nil_2.
Defined.

Lemma gradient_layout_witness :
  let m := example_model in
  let gX : mat := [[Fin 5; Fin 6]; [Fin 7; Fin 8]] in
  let gθ : vec := [Fin 9] in
  let g := _log_likelihood_gradients unit (λ _ _ _, gθ) (λ _ _ _, gX)
             (λ _, []) m in
  let p := GPLVM_get_params unit (λ _, [Fin 10]) m in
  take (2 * 2) g
    = flatten (fmap (M := list) (fmap (M := list) (fmul (Fin 2))) gX) ∧
  drop (2 * 2) g = gθ ∧
  (∀ n q, (n < 2)%nat → (q < 2)%nat →
     g !! (n * 2 + q)%nat = fmul (Fin 2) <$> mget gX n q ∧
     p !! (n * 2 + q)%nat = mget (X unit m) n q) ∧
  (∀ t, g !! (2 * 2 + t)%nat = gθ !! t ∧
        p !! (2 * 2 + t)%nat = [Fin 10] !! t).
Proof.
  apply (gradient_layout (λ _, [Fin 10]) (λ _ _ _, [Fin 9])
           (λ _ _ _, [[Fin 5; Fin 6]; [Fin 7; Fin 8]]) (λ _, [])
           example_model).
  - split; [reflexivity|].
    repeat (apply Forall_cons; split; [reflexivity|]). apply Forall_nil_2.
  - split; [reflexivity|].
    repeat (apply Forall_cons; split; [reflexivity|]). apply Forall_nil_2.
Defined.

(** ** The Gram matrix *)

Lemma for_range_inv {St} (body : nat → St → res St) (P : nat → St → Prop)
    (start count : nat) (s : St) :
  P start s →
  (∀ i s, (start <= i < start + count)%nat → P i s →
     ∃ s', body i s = Ok s' ∧ P (S i) s') →
  ∃ s', for_range body start count s = Ok s' ∧ P (start + count)%nat s'.
Proof.
  revert start s. induction count as [|c IH]; intros start s H0 Hstep; simpl.
  - exists s. split; [done|]. by replace (start + 0)%nat with start by lia.
  - destruct (Hstep start s) as (s1 & Hb & H1); [lia|done|].
    rewrite Hb. simpl.
    destruct (IH (S start) s1) as (s' & Hr & H'); [done| |].
    + intros i s2 Hi. apply Hstep. lia.
    + exists s'. split; [done|].
      by replace (start + S c)%nat with (S start + c)%nat by lia.
Qed.

Lemma is_mat_mset (n m : nat) (G : mat) (i j : nat) (v : num) :
  is_mat n m G → is_mat n m (mset G i j v).
Proof.
  intros [Hn HG]. unfold mset. split; [by rewrite length_alter|].
  apply Forall_lookup. intros a r Hr.
  rewrite Forall_lookup in HG.
  destruct (decide (a = i)) as [->|Hne].
  - rewrite list_lookup_alter_eq in Hr.
    destruct (G !! i) as [r0|] eqn:Hr0; simpl in Hr; [|done].
    injection Hr as <-. rewrite length_insert. by apply (HG i).
  - rewrite list_lookup_alter_ne in Hr by done. by apply (HG a).
Qed.

Lemma mget_mset_eq (n m : nat) (G : mat) (i j : nat) (v : num) :
  is_mat n m G → (i < n)%nat → (j < m)%nat →
  mget (mset G i j v) i j = Some v.
Proof.
  intros [Hn HG] Hi Hj. unfold mget, mset.
  rewrite list_lookup_alter_eq.
  destruct (lookup_lt_is_Some_2 G i) as [r Hr]; [lia|]. rewrite Hr. simpl.
  apply list_lookup_insert_eq.
  rewrite Forall_lookup in HG. by rewrite (HG i r).
Qed.

Lemma mget_mset_ne (G : mat) (i j a b : nat) (v : num) :
  (a, b) ≠ (i, j) → mget (mset G i j v) a b = mget G a b.
Proof.
  intros Hne. unfold mget, mset.
  destruct (decide (a = i)) as [->|Ha].
  - rewrite list_lookup_alter_eq.
    destruct (G !! i) as [r|]; simpl; [|done].
    apply list_lookup_insert_ne. congruence.
  - by rewrite list_lookup_alter_ne.
Qed.

Lemma bvec_singleton_l {A B C} (f : A → B → C) (x : A) (b : list B) :
  bvec f [x] b = Ok (f x <$> b).
Proof.
  unfold bvec. case_decide as H; [|done].
  by destruct b as [|y [|??]].
Qed.

Ltac num_crush :=
  repeat (simpl; unfold inf_of_sign;
    match goal with
    | |- context [Rlt_dec ?a ?b] => destruct (Rlt_dec a b)
    | |- context [Req_dec_T ?a ?b] => destruct (Req_dec_T a b)
    end);
  simpl;
  first [ reflexivity | lra | (f_equal; lra) | (f_equal; field; lra)
        | (exfalso; match goal with H : _ ≠ _ |- _ => apply H; lra end)
        | (exfalso; lra) ].

(** The coefficient [lengthscale/2./variance] is
    [lengthscale / (2 * variance)]. *)
Lemma fdiv_fdiv_2 (l v : num) :
  fdiv (fdiv l (Fin 2)) v = fdiv l (fmul (Fin 2) v).
Proof. destruct l as [a| | |], v as [b| | |]; num_crush. Qed.

Lemma kernel_wf_D1 (k : exponential) :
  kernel_wf k → D k = 1%Z → ∃ l, lengthscale k = [l].
Proof.
  intros [HN Hl] HD. rewrite HN, HD in Hl.
  assert (length (lengthscale k) = 1%nat) as H1.
  { destruct (ARD k); lia. }
  destruct (lengthscale k) as [|l [|??]]; try discriminate H1. by exists l.
Qed.

Section Gram_properties.
Variable quad : (num → num) → num → num → num.

Lemma G_integral_sym (l : num) (F F1 : list (num → num)) (lower upper : num)
    (i j : nat) :
  G_integral quad l F F1 lower upper i j
    = G_integral quad l F F1 lower upper j i.
Proof.
  unfold G_integral. f_equal.
  apply functional_extensionality. intros x. apply fmul_comm.
Qed.

Lemma Gram_entry_Ok (k : exponential) (l : num) (F F1 : list (num → num))
    (lower upper : num) (i j : nat) :
  lengthscale k = [l] → (length F <= length F1)%nat →
  (i < length F)%nat → (j < length F)%nat →
  Gram_entry quad k F F1 lower upper i j
    = Ok (G_integral quad l F F1 lower upper i j).
Proof.
  intros Hl HF Hi Hj. unfold Gram_entry, G_integral, L_at.
  destruct (lookup_lt_is_Some_2 F i) as [fi Hfi]; [lia|].
  destruct (lookup_lt_is_Some_2 F j) as [fj Hfj]; [lia|].
  destruct (lookup_lt_is_Some_2 F1 i) as [gi Hgi]; [lia|].
  destruct (lookup_lt_is_Some_2 F1 j) as [gj Hgj]; [lia|].
  by rewrite Hfi, Hfj, Hgi, Hgj, Hl.
Qed.

(** What the two loops leave in [G]: the integral of the pair, computed
    once for [i <= j] and stored at [(i,j)] and [(j,i)]. *)
Lemma Gram_loop_Ok (k : exponential) (l : num) (F F1 : list (num → num))
    (lower upper : num) :
  lengthscale k = [l] → (length F <= length F1)%nat →
  ∃ G, Gram_loop quad k F F1 lower upper = Ok G ∧
       is_mat (length F) (length F) G ∧
       ∀ a b, (a < length F)%nat → (b < length F)%nat →
         mget G a b
           = Some (G_integral quad l F F1 lower upper (a `min` b) (a `max` b)).
Proof.
  intros Hl HF. unfold Gram_loop. set (n := length F).
  set (gi := G_integral quad l F F1 lower upper).
  pose (P := λ (i : nat) (G : mat),
    is_mat n n G ∧
    ∀ a b, (a < n)%nat → (b < n)%nat → (a `min` b < i)%nat →
      mget G a b = Some (gi (a `min` b) (a `max` b))).
  destruct (for_range_inv
    (λ i G, for_range (λ j G,
       v ← Gram_entry quad k F F1 lower upper i j;
       Ok (mset (mset G i j v) j i v)) i (n - i) G)
    P 0 n (replicate n (replicate n (Fin 0)))) as (G & HG & [Hm HP]).
  - split.
    + split; [by rewrite length_replicate|].
      apply Forall_replicate. by rewrite length_replicate.
    + intros a b _ _ H. lia.
  - intros i G0 Hi [Hm0 HP0].
    pose (Pin := λ (j : nat) (G : mat),
      is_mat n n G ∧
      ∀ a b, (a < n)%nat → (b < n)%nat →
        (a `min` b < i ∨ (a `min` b = i ∧ a `max` b < j))%nat →
        mget G a b = Some (gi (a `min` b) (a `max` b))).
    destruct (for_range_inv
      (λ j G, v ← Gram_entry quad k F F1 lower upper i j;
              Ok (mset (mset G i j v) j i v))
      Pin i (n - i) G0) as (G1 & HG1 & [Hm1 HP1]).
    + split; [done|]. intros a b Ha Hb [H|H]; [by apply HP0|lia].
    + intros j G2 Hj [Hm2 HP2].
      rewrite (Gram_entry_Ok k l) by (done || lia). simpl.
      eexists. split; [reflexivity|]. split.
      * by do 2 apply is_mat_mset.
      * intros a b Ha Hb Hab.
        destruct (decide ((a, b) = (j, i))) as [[= -> ->]|Hne1].
        { rewrite (mget_mset_eq n n) by (lia || by apply is_mat_mset).
          f_equal. fold gi. f_equal; lia. }
        rewrite mget_mset_ne by done.
        destruct (decide ((a, b) = (i, j))) as [[= -> ->]|Hne2].
        { rewrite (mget_mset_eq n n) by (lia || done).
          f_equal. fold gi. f_equal; lia. }
        rewrite mget_mset_ne by done.
        apply HP2; [done..|].
        assert (¬ (a = j ∧ b = i)) by (intros [-> ->]; done).
        assert (¬ (a = i ∧ b = j)) by (intros [-> ->]; done).
        lia.
    + exists G1. split; [done|]. split; [done|].
      intros a b Ha Hb Hab. apply HP1; [done..|]. lia.
  - exists G. split; [done|]. split; [done|].
    intros a b Ha Hb. apply HP; [done..|]. lia.
Qed.

(** C10.  For a kernel with [D = 1], the matrix [Gram_matrix] returns is
    symmetric, and its entry [(i,j)] is
    [lengthscale / (2 variance) * G_integral[i,j]
     + 1/variance * F_i(lower) * F_j(lower)], where [G_integral[i,j]] is
    the quadrature of [L[F_i] * L[F_j]] over the bounds, with
    [L[f](x) = (1/lengthscale) f(x) + f'(x)]; [quad] is any function of
    the integrand and the bounds. *)
Theorem Gram_matrix_formula (k : exponential) (F F1 : list (num → num))
    (lower upper : num) :
  kernel_wf k → D k = 1%Z → (length F <= length F1)%nat →
  ∃ l G,
    lengthscale k = [l] ∧
    Gram_matrix quad k F F1 lower upper = Ok G ∧
    is_mat (length F) (length F) G ∧
    (∀ i j, mget G i j = mget G j i) ∧
    (∀ i j fi fj, F !! i = Some fi → F !! j = Some fj →
       mget G i j =
         Some (fadd
           (fmul (fdiv l (fmul (Fin 2) (variance k)))
                 (G_integral quad l F F1 lower upper i j))
           (fmul (fdiv (Fin 1) (variance k))
                 (fmul (fi lower) (fj lower))))).
Proof.
  intros Hwf HD HF.
  destruct (kernel_wf_D1 k Hwf HD) as [l Hl]. exists l.
  destruct (Gram_loop_Ok k l F F1 lower upper Hl HF) as (G & HG & Hm & Hent).
  set (n := length F) in *.
  set (c0 := fdiv (fdiv l (Fin 2)) (variance k)).
  set (O := (λ a, (λ b, fmul (fdiv (Fin 1) (variance k)) (fmul a b))
                     <$> ((λ f, f lower) <$> F)) <$> ((λ f, f lower) <$> F)).
  set (R := zip_with (zip_with fadd)
              (fmap (M := list) (fmap (M := list) (fmul c0)) G) O).
  assert (HR : Gram_matrix quad k F F1 lower upper = Ok R).
  { unfold Gram_matrix. rewrite decide_True by done. rewrite HG. simpl.
    rewrite Hl. simpl.
    rewrite (mapM_Ok_fmap _ (fmap (M := list) (fmul c0))).
    - reflexivity.
    - apply Forall_forall. intros r _. apply bvec_singleton_l. }
  assert (HO : is_mat n n O).
  { pose proof (is_mat_outer
      (λ a b, fmul (fdiv (Fin 1) (variance k)) (fmul a b))
      ((λ f : num → num, f lower) <$> F) ((λ f : num → num, f lower) <$> F))
      as H.
    by rewrite !length_fmap in H. }
  assert (Hval : ∀ i j fi fj, F !! i = Some fi → F !! j = Some fj →
    mget R i j = Some (fadd
      (fmul (fdiv l (fmul (Fin 2) (variance k)))
            (G_integral quad l F F1 lower upper i j))
      (fmul (fdiv (Fin 1) (variance k)) (fmul (fi lower) (fj lower))))).
  { intros i j fi fj Hfi Hfj.
    pose proof (lookup_lt_Some _ _ _ Hfi) as Hi.
    pose proof (lookup_lt_Some _ _ _ Hfj) as Hj.
    unfold R. rewrite mget_zip_with, mget_fmap, (Hent i j) by done.
    unfold O. rewrite mget_outer, !list_lookup_fmap, Hfi, Hfj. simpl.
    unfold c0. rewrite fdiv_fdiv_2. do 3 f_equal.
    destruct (decide (i <= j)%nat).
    - f_equal; lia.
    - rewrite G_integral_sym. f_equal; lia. }
  exists R. split; [done|]. split; [done|]. split; [|split; [|done]].
  - apply is_mat_zip_with; [by apply is_mat_fmap|done].
  - intros i j.
    destruct (decide ((i < n)%nat ∧ (j < n)%nat)) as [[Hi Hj]|Hout].
    + destruct (lookup_lt_is_Some_2 F i Hi) as [fi Hfi].
      destruct (lookup_lt_is_Some_2 F j Hj) as [fj Hfj].
      rewrite (Hval i j fi fj), (Hval j i fj fi) by done.
      by rewrite G_integral_sym, (fmul_comm (fi lower)).
    + assert (HRm : is_mat n n R)
        by (apply is_mat_zip_with; [by apply is_mat_fmap|done]).
      rewrite !(mget_None_is_mat n n) by (done || lia). done.
Qed.
End Gram_properties.

Lemma Gram_matrix_formula_witness :
  let quad := λ (f : num → num) (a b : num),
                fmul (fsub b a) (f (fdiv (fadd a b) (Fin 2))) in
  let k := Exponential 1 false 2 "exp" (Fin 4) [Fin 2] in
  let F := [λ _ : num, Fin 1; λ x : num, x] in
  let F1 := [λ _ : num, Fin 0; λ _ : num, Fin 1] in
  ∃ G, Gram_matrix quad k F F1 (Fin 0) (Fin 2) = Ok G ∧
       is_mat 2 2 G ∧
       mget G 0 1 = mget G 1 0 ∧
       mget G 0 0 = Some (Fin (3 / 8)) ∧
       mget G 0 1 = Some (Fin (3 / 8)) ∧
       mget G 1 1 = Some (Fin (9 / 8)).
Proof.
  intros quad k F F1.
  destruct (Gram_matrix_formula quad k F F1 (Fin 0) (Fin 2))
    as (l & G & Hl & HG & Hm & Hsym & Hval).
  - split; reflexivity.
  - reflexivity.
  - simpl. lia.
  - injection Hl as <-.
    exists G. split; [exact HG|]. split; [exact Hm|].
    split; [apply Hsym|].
    assert (Hv : ∀ i j fi fj, F !! i = Some fi → F !! j = Some fj →
              ∀ c, fadd (fmul (fdiv (Fin 2) (fmul (Fin 2) (variance k)))
                       (G_integral quad (Fin 2) F F1 (Fin 0) (Fin 2) i j))
                     (fmul (fdiv (Fin 1) (variance k))
                        (fmul (fi (Fin 0)) (fj (Fin 0)))) = Fin c →
              mget G i j = Some (Fin c)).
    { intros i j fi fj Hi Hj c <-. by apply Hval. }
    split; [|split].
    + apply (Hv 0%nat 0%nat _ _ eq_refl eq_refl).
      unfold G_integral, L_at, quad.
      cbn [lookup list_lookup F F1 variance k fmul fadd fsub fneg].
      rewrite !fdiv_fin by lra.
      cbn [fmul fadd fsub fneg]. f_equal. lra.
    + apply (Hv 0%nat 1%nat _ _ eq_refl eq_refl).
      unfold G_integral, L_at, quad.
      cbn [lookup list_lookup F F1 variance k fmul fadd fsub fneg].
      rewrite !fdiv_fin by lra.
      cbn [fmul fadd fsub fneg]. f_equal. lra.
    + apply (Hv 1%nat 1%nat _ _ eq_refl eq_refl).
      unfold G_integral, L_at, quad.
      cbn [lookup list_lookup F F1 variance k fmul fadd fsub fneg].
      rewrite !fdiv_fin by lra.
      cbn [fmul fadd fsub fneg]. f_equal. lra.
Defined.

(** ** Zero-distance masking *)

Lemma outer_sub_eq (Dx : nat) (X X2 : mat) :
  Forall (λ r, length r = Dx) X → Forall (λ r, length r = Dx) X2 →
  outer_sub X X2 = Ok ((λ x, (λ y, zip_with fsub x y) <$> X2) <$> X).
Proof.
  intros HX HX2. unfold outer_sub.
  rewrite Forall_forall in HX. rewrite Forall_forall in HX2.
  apply mapM_Ok_fmap, Forall_forall. intros x Hx.
  apply mapM_Ok_fmap, Forall_forall. intros y Hy.
  apply bvec_same. by rewrite (HX x), (HX2 y).
Qed.

Lemma tvec_eq (f : num → num → num) (g : vec → vec → vec) (v : vec)
    (X X2 : mat) :
  (∀ x y, x ∈ X → y ∈ X2 → ∃ q, bvec f (g x y) v = Ok q) →
  tvec f ((λ x, (λ y, g x y) <$> X2) <$> X) v =
    Ok ((λ x, (λ y, res_get [] (bvec f (g x y) v)) <$> X2) <$> X).
Proof.
  intros Hok. unfold tvec. rewrite mapM_fmap_l.
  apply mapM_Ok_fmap, Forall_forall. intros x Hx. simpl.
  rewrite mapM_fmap_l.
  apply mapM_Ok_fmap, Forall_forall. intros y Hy. simpl.
  destruct (Hok x y Hx Hy) as [q Hq]. by rewrite Hq.
Qed.

Lemma outer_fmap {A B C D} (h : C → D) (g : A → B → C) (X : list A)
    (X2 : list B) :
  fmap (M := list) (fmap (M := list) h) ((λ x, g x <$> X2) <$> X)
    = (λ x, (λ y, h (g x y)) <$> X2) <$> X.
Proof.
  rewrite <- list_fmap_compose. apply list_fmap_ext. intros i x _. simpl.
  by rewrite <- list_fmap_compose.
Qed.



Lemma length_omap_col {A} (M : list (list A)) (m j : nat) :
  Forall (λ r, length r = m) M → (j < m)%nat →
  length (omap (.!! j) M) = length M.
Proof.
  intros HM Hj. induction HM as [|r M Hr HM IH]; [done|].
  destruct (lookup_lt_is_Some_2 r j) as [y Hy]; [lia|].
  simpl. rewrite Hy. simpl. f_equal. exact IH.
Qed.

Lemma is_mat_transpose {A} (n m : nat) (M : list (list A)) :
  is_mat n m M → (0 < n)%nat → is_mat m n (transpose M).
Proof.
  intros [Hn HM] Hpos. unfold transpose.
  assert (Hh : length (default [] (head M)) = m).
  { destruct M as [|r M]; [simpl in Hn; lia|].
    simpl. by apply Forall_cons in HM as [Hr _]. }
  rewrite Hh. split; [by rewrite length_fmap, length_seq|].
  apply Forall_fmap, Forall_forall. intros j Hj. simpl.
  apply elem_of_seq in Hj.
  rewrite (length_omap_col M m) by (done || lia). done.
Qed.








Lemma is_fin_fmul (x y : num) : is_fin x → is_fin y → is_fin (fmul x y).
Proof. by destruct x, y. Qed.

Lemma bind_Ok_l {A B} (a : A) (f : A → res B) : Ok a ≫= f = f a.
Proof. reflexivity. Qed.

(** The arrays of one call, in closed form, for rows of one length. *)
Lemma dist2M_eq (k : exponential) (Dx : nat) (X X2 : mat) :
  Forall (λ r, length r = Dx) X → Forall (λ r, length r = Dx) X2 →
  bcompat Dx (length (lengthscale k)) →
  dist2M k X X2 =
    Ok ((λ x, (λ y, res_get []
                 (bvec fdiv (fsquare <$> zip_with fsub x y)
                            (fcube <$> lengthscale k))) <$> X2) <$> X).
Proof.
  intros HX HX2 Hc. unfold dist2M.
  rewrite (outer_sub_eq Dx) by done. rewrite bind_Ok_l.
  rewrite (outer_fmap (fmap (M := list) fsquare)
             (λ x y : vec, zip_with fsub x y)).
  apply (tvec_eq fdiv (λ x y, fsquare <$> zip_with fsub x y)).
  intros x y Hx Hy. apply bvec_is_Ok.
  rewrite Forall_forall in HX. rewrite Forall_forall in HX2.
  rewrite !length_fmap, length_zip_with, (HX x), (HX2 y) by done.
  by replace (Dx `min` Dx)%nat with Dx by lia.
Qed.

Lemma dX_quot_eq (k : exponential) (Dx : nat) (X X2 : mat) :
  Forall (λ r, length r = Dx) X → Forall (λ r, length r = Dx) X2 →
  bcompat Dx (length (lengthscale k)) →
  tvec fdiv ((λ x, (λ y, zip_with fsub x y) <$> X2) <$> X)
       (fsquare <$> lengthscale k) =
    Ok ((λ x, (λ y, res_get []
                 (bvec fdiv (zip_with fsub x y)
                            (fsquare <$> lengthscale k))) <$> X2) <$> X).
Proof.
  intros HX HX2 Hc.
  apply (tvec_eq fdiv (λ x y, zip_with fsub x y)).
  intros x y Hx Hy. apply bvec_is_Ok.
  rewrite Forall_forall in HX. rewrite Forall_forall in HX2.
  rewrite !length_fmap, length_zip_with, (HX x), (HX2 y) by done.
  by replace (Dx `min` Dx)%nat with Dx by lia.
Qed.











(** * Further properties *)

(** ** The kernel's parameters *)

Lemma init_wf (D0 : Z) (v : num) (ls : option vec) (ard : bool)
    (k : exponential) :
  init D0 v ls ard = Ok k → kernel_wf k ∧ D k = D0 ∧ ARD k = ard.
Proof.
  unfold init, kernel_wf. destruct ard.
  - destruct ls as [ls|]; simpl.
    + case_decide as Hl; simpl; [|discriminate].
      unfold _set_params. simpl. case_decide as Hn; [|discriminate].
      intros [= <-]. simpl in *. repeat split; lia.
    + unfold np_ones. case_decide as Hd; simpl; [discriminate|].
      unfold _set_params. simpl. case_decide as Hn; [|discriminate].
      intros [= <-]. simpl in *. rewrite length_replicate in *.
      repeat split; lia.
  - destruct ls as [ls|]; simpl.
    + case_decide as Hl; simpl; [|discriminate].
      unfold _set_params. simpl. case_decide as Hn; [|discriminate].
      intros [= <-]. simpl in *. repeat split; lia.
    + unfold _set_params. simpl. intros [= <-]. simpl. repeat split; lia.
Qed.

Lemma set_params_wf (k k' : exponential) (x : vec) :
  kernel_wf k → _set_params k x = Ok k' →
  kernel_wf k' ∧ D k' = D k ∧ ARD k' = ARD k ∧ Nparam k' = Nparam k ∧
  name k' = name k.
Proof.
  intros [HN Hl]. unfold _set_params, kernel_wf.
  case_decide as Hx; [|discriminate].
  destruct x as [|x0 xs]; [discriminate|]. intros [= <-]. simpl in *.
  repeat split; [done|lia].
Qed.

(** X1.  The shape of a kernel is fixed at construction: any number of
    [_set_params] calls that succeed leave [D], [ARD], [Nparam] and the
    name as the constructor set them, and the lengthscale keeps
    [Nparam - 1] entries. *)
Theorem kernel_shape_kept (D0 : Z) (var : num) (ls : option vec)
    (ard : bool) (k k' : exponential) (vs : list vec) :
  init D0 var ls ard = Ok k →
  set_params_seq k vs = Ok k' →
  kernel_wf k' ∧ D k' = D0 ∧ ARD k' = ard ∧ Nparam k' = Nparam k ∧
  name k' = name k ∧
  Z.of_nat (length (_get_params k')) = (if ard then D0 + 1 else 2)%Z.
Proof.
  intros Hk Hseq. apply init_wf in Hk as (Hwf & HD & HA).
  assert (H : kernel_wf k' ∧ D k' = D k ∧ ARD k' = ARD k ∧
              Nparam k' = Nparam k ∧ name k' = name k).
  { clear HD HA. revert k Hwf Hseq.
    induction vs as [|v vs IH]; intros k Hwf Hseq; simpl in Hseq.
    - by injection Hseq as <-.
    - apply bind_Ok in Hseq as (k1 & Hk1 & Hseq).
      destruct (set_params_wf k k1 v Hwf Hk1) as (Hwf1 & H1 & H2 & H3 & H4).
      destruct (IH k1 Hwf1 Hseq) as (Hwf2 & ? & ? & ? & ?).
      split; [exact Hwf2|]. repeat split; congruence. }
  destruct H as (Hwf' & HD' & HA' & HN' & Hname).
  split; [exact Hwf'|]. repeat split; try congruence.
  destruct Hwf' as [HN Hl]. unfold _get_params. simpl length.
  rewrite HA', HD', HA, HD in HN. lia.
Qed.

Lemma kernel_shape_kept_witness :
  let k := Exponential 2 true 3 "exp_ARD" (Fin 1) [Fin 1; Fin 1] in
  let k' := Exponential 2 true 3 "exp_ARD" (Fin 5) [Fin 6; Fin 7] in
  kernel_wf k' ∧ D k' = 2%Z ∧ ARD k' = true ∧ Nparam k' = Nparam k ∧
  name k' = name k ∧
  Z.of_nat (length (_get_params k')) = (2 + 1)%Z.
Proof.
  apply (kernel_shape_kept 2 (Fin 1) None true _ _ [[Fin 5; Fin 6; Fin 7]]);
    reflexivity.
Defined.

(** X2.  The defaults of the constructor: without a lengthscale the kernel gets
    one lengthscale 1 (no ARD) or [D] of them (ARD), and a negative [D]
    with ARD makes [np.ones] raise. *)
Theorem init_defaults (D0 : Z) (d : nat) (p : positive) (var : num) :
  (∃ k, init D0 var None false = Ok k ∧
        _get_params k = [var; Fin 1] ∧ Nparam k = 2%Z ∧
        name k = "exp"%string) ∧
  (∃ k, init (Z.of_nat d) var None true = Ok k ∧
        _get_params k = var :: replicate d (Fin 1) ∧
        Nparam k = (Z.of_nat d + 1)%Z ∧ name k = "exp_ARD"%string) ∧
  init (Z.neg p) var None true = Raise ValueError.
Proof.
  split; [|split].
  - eexists. split; [reflexivity|]. by repeat split.
  - unfold init, np_ones. rewrite decide_False by lia. simpl.
    rewrite Nat2Z.id. unfold _set_params. simpl.
    rewrite length_replicate.
    rewrite decide_True by lia. eexists. split; [reflexivity|].
    by repeat split.
  - unfold init, np_ones. by rewrite decide_True by lia.
Qed.

(** ** The names of the kernel's parameters *)

Lemma lengthscale_names_NoDup (n : nat) :
  NoDup ((λ i : nat, ("lengthscale_" ++ pretty i)%string) <$> seq 0 n).
Proof.
  apply NoDup_fmap_2; [|apply NoDup_seq].
  intros i j Hij. apply (inj (String.append "lengthscale_")) in Hij.
  by apply (inj pretty) in Hij.
Qed.

(** X3.  For a kernel of the shape the constructor gives, there is one name per
    parameter, the first is [variance], and no name occurs twice. *)
Theorem param_names_aligned (k : exponential) :
  kernel_wf k →
  length (_get_param_names k) = length (_get_params k) ∧
  _get_param_names k !! 0%nat = Some "variance"%string ∧
  NoDup (_get_param_names k).
Proof.
  intros [HN Hl]. unfold _get_param_names, _get_params.
  case_decide as H2.
  - split; [|split; [done|]].
    + simpl. rewrite H2 in Hl. lia.
    + apply NoDup_cons. split; [|apply NoDup_singleton].
      rewrite list_elem_of_singleton. discriminate.
  - split; [|split; [done|]].
    + simpl. by rewrite length_fmap, length_seq.
    + apply NoDup_cons. split; [|apply lengthscale_names_NoDup].
      intros Hin. apply list_elem_of_fmap in Hin as (i & Hi & _).
      discriminate Hi.
Qed.

Lemma param_names_aligned_witness :
  let k := Exponential 2 true 3 "exp_ARD" (Fin 1) [Fin 1; Fin 1] in
  length (_get_param_names k) = length (_get_params k) ∧
  _get_param_names k !! 0%nat = Some "variance"%string ∧
  NoDup (_get_param_names k).
Proof.
  apply (param_names_aligned
           (Exponential 2 true 3 "exp_ARD" (Fin 1) [Fin 1; Fin 1])).
  split; reflexivity.
Defined.

(** ** The guarded reciprocal *)

(** X4.  [1./np.where(dist!=0.,dist,np.inf)] is a finite number for every
    distance that is not NaN: 0 at distance 0 and at an infinite distance,
    [1/d] otherwise. *)
Theorem inv_guard_finite (d : num) :
  d ≠ NaN →
  is_fin (inv_guard d) ∧
  match d with
  | Fin a => inv_guard d = if Req_dec_T a 0 then Fin 0 else Fin (1 / a)
  | _ => inv_guard d = Fin 0
  end.
Proof.
  intros Hd. unfold inv_guard.
  destruct d as [a| | |]; [|by split|by split|done].
  simpl. destruct (Req_dec_T a 0) as [->|Ha].
  - by split.
  - simpl. destruct (Req_dec_T a 0); [contradiction|]. by split.
Qed.

Lemma inv_guard_finite_witness :
  is_fin (inv_guard (Fin 0)) ∧
  inv_guard (Fin 0) = if Req_dec_T 0 0 then Fin 0 else Fin (1 / 0).
Proof. apply (inv_guard_finite (Fin 0)). discriminate. Defined.

(** ** The covariance of two sets of points *)

(** [K] with an [X2], on a target of the shape of the result. *)
Lemma K_eq2 (k : exponential) (Dx : nat) (X X2 : mat) (T : mat) :
  Forall (λ r, length r = Dx) X → Forall (λ r, length r = Dx) X2 →
  bcompat Dx (length (lengthscale k)) →
  is_mat (length X) (length X2) T →
  K k X (Some X2) T =
    Ok (zip_with (zip_with fadd)
          ((λ x, (λ y, fmul (variance k)
                         (fexp (fneg (res_get NaN
                            (rowdist (lengthscale k) x y))))) <$> X2) <$> X)
          T).
Proof.
  intros HX HX2 Hls HT. unfold K. simpl.
  rewrite (scaled_dist_eq k Dx) by done. simpl.
  rewrite <- list_fmap_compose.
  rewrite (list_fmap_ext _
    (λ x, (λ y, fmul (variance k)
             (fexp (fneg (res_get NaN (rowdist (lengthscale k) x y)))))
          <$> X2) X).
  - apply (bmat_out_same _ (length X) (length X2)); [|done].
    apply is_mat_outer.
  - intros i x Hx. simpl. by rewrite <- list_fmap_compose.
Qed.

Lemma is_mat_zeros (n m : nat) : is_mat n m (replicate n (replicate m (Fin 0))).
Proof.
  split; [by rewrite length_replicate|].
  apply Forall_replicate. by rewrite length_replicate.
Qed.

Lemma zip_with_fadd_zeros (r : vec) :
  zip_with fadd r (replicate (length r) (Fin 0)) = r.
Proof.
  induction r as [|a r IH]; [done|]. simpl. by rewrite fadd_0_r, IH.
Qed.

Lemma madd_zeros (n m : nat) (M : mat) :
  is_mat n m M →
  zip_with (zip_with fadd) M (replicate n (replicate m (Fin 0))) = M.
Proof.
  intros [Hn HM]. subst n.
  induction HM as [|r M Hr HM IH]; [done|]. simpl.
  rewrite IH. f_equal. rewrite <- Hr. apply zip_with_fadd_zeros.
Qed.

(** X5.  [K] accumulates: whatever the target holds, the covariance matrix (what
    [K] leaves in a target of zeros) is added to it, entry by entry. *)
Theorem K_accumulates (k : exponential) (Dx : nat) (X X2 : mat) (T : mat) :
  Forall (λ r, length r = Dx) X → Forall (λ r, length r = Dx) X2 →
  bcompat Dx (length (lengthscale k)) →
  is_mat (length X) (length X2) T →
  ∃ K0 T',
    K k X (Some X2) (replicate (length X) (replicate (length X2) (Fin 0)))
      = Ok K0 ∧
    K k X (Some X2) T = Ok T' ∧
    is_mat (length X) (length X2) T' ∧
    T' = zip_with (zip_with fadd) K0 T.
Proof.
  intros HX HX2 Hls HT. eexists _, _.
  split; [apply (K_eq2 k Dx); [done..|apply is_mat_zeros]|].
  split; [by apply (K_eq2 k Dx)|].
  split.
  - apply is_mat_zip_with; [apply is_mat_outer|done].
  - rewrite (madd_zeros (length X) (length X2)) by apply is_mat_outer.
    reflexivity.
Qed.

Lemma K_accumulates_witness :
  let k := Exponential 1 false 2 "exp" (Fin 1) [Fin 1] in
  let X := [[Fin 0]; [Fin 1]] in
  let X2 := [[Fin 3]] in
  let T := [[Fin 5]; [Fin 7]] in
  ∃ K0 T',
    K k X (Some X2) (replicate (length X) (replicate (length X2) (Fin 0)))
      = Ok K0 ∧
    K k X (Some X2) T = Ok T' ∧
    is_mat (length X) (length X2) T' ∧
    T' = zip_with (zip_with fadd) K0 T.
Proof.
  apply (K_accumulates _ 1%nat).
  - repeat (apply Forall_cons; split; [reflexivity|]). apply Forall_nil_2.
  - repeat (apply Forall_cons; split; [reflexivity|]). apply Forall_nil_2.
  - by left.
  - split; [reflexivity|].
    repeat (apply Forall_cons; split; [reflexivity|]). apply Forall_nil_2.
Defined.

(** X6.  Exchanging the two sets of points transposes the result: when the
    targets are transposes of each other, entry [(j,i)] of [K(X2,X)] is
    entry [(i,j)] of [K(X,X2)]. *)
Theorem K_cross_symmetric (k : exponential) (Dx : nat) (X X2 : mat)
    (T T2 : mat) :
  Forall (λ r, length r = Dx) X → Forall (λ r, length r = Dx) X2 →
  bcompat Dx (length (lengthscale k)) →
  is_mat (length X) (length X2) T →
  is_mat (length X2) (length X) T2 →
  (∀ i j, mget T2 j i = mget T i j) →
  ∃ R R2, K k X (Some X2) T = Ok R ∧ K k X2 (Some X) T2 = Ok R2 ∧
          ∀ i j, mget R2 j i = mget R i j.
Proof.
  intros HX HX2 Hls HT HT2 Hsym. eexists _, _.
  split; [by apply (K_eq2 k Dx)|].
  split; [by apply (K_eq2 k Dx)|].
  intros i j. rewrite !mget_zip_with, !mget_outer, (Hsym i j).
  destruct (X !! i) as [x|], (X2 !! j) as [y|]; try done.
  by rewrite (rowdist_sym _ y x).
Qed.

Lemma K_cross_symmetric_witness :
  let k := Exponential 1 false 2 "exp" (Fin 1) [Fin 1] in
  ∃ R R2, K k [[Fin 0]; [Fin 1]] (Some [[Fin 3]]) [[Fin 5]; [Fin 7]] = Ok R ∧
          K k [[Fin 3]] (Some [[Fin 0]; [Fin 1]]) [[Fin 5; Fin 7]] = Ok R2 ∧
          ∀ i j, mget R2 j i = mget R i j.
Proof.
  apply (K_cross_symmetric _ 1%nat).
  - repeat (apply Forall_cons; split; [reflexivity|]). apply Forall_nil_2.
  - repeat (apply Forall_cons; split; [reflexivity|]). apply Forall_nil_2.
  - by left.
  - split; [reflexivity|].
    repeat (apply Forall_cons; split; [reflexivity|]). apply Forall_nil_2.
  - split; [reflexivity|].
    repeat (apply Forall_cons; split; [reflexivity|]). apply Forall_nil_2.
  - intros [|[|i]] [|j]; reflexivity.
Defined.

(** ** One lengthscale for every dimension *)

Lemma bvec_singleton_r {A B C} (f : A → B → C) (a : list A) (y : B) :
  bvec f a [y] = Ok ((λ x, f x y) <$> a).
Proof.
  unfold bvec. case_decide as H.
  - destruct a as [|x [|x' a]]; try discriminate H. reflexivity.
  - destruct a as [|x [|x' a]]; reflexivity.
Qed.

Lemma zip_with_replicate_r {A B C} (f : A → B → C) (a : list A) (y : B) :
  zip_with f a (replicate (length a) y) = (λ x, f x y) <$> a.
Proof. induction a as [|x a IH]; [done|]. simpl. by rewrite IH. Qed.

Lemma rowdist_replicate (l : num) (x y : vec) :
  length x = length y →
  rowdist (replicate (length x) l) x y = rowdist [l] x y.
Proof.
  intros Hxy. unfold rowdist. rewrite bvec_same by done. simpl.
  assert (Hd : length (zip_with fsub x y) = length x).
  { rewrite length_zip_with. lia. }
  rewrite bvec_singleton_r, bvec_same by by rewrite length_replicate.
  simpl. rewrite <- Hd. by rewrite zip_with_replicate_r.
Qed.

(** X7.  The kernel without ARD is the ARD kernel with equal lengthscales: on
    data of [D] columns the constructor's two kernels, one with the
    lengthscale [l] and one with [D] copies of it, make [K] do the same
    thing to every target. *)
Theorem K_isotropic_as_ARD (var l : num) (Dx : nat) (k1 k2 : exponential)
    (X X2 T : mat) :
  init (Z.of_nat Dx) var (Some [l]) false = Ok k1 →
  init (Z.of_nat Dx) var (Some (replicate Dx l)) true = Ok k2 →
  Forall (λ r, length r = Dx) X → Forall (λ r, length r = Dx) X2 →
  K k1 X (Some X2) T = K k2 X (Some X2) T.
Proof.
  intros H1 H2 HX HX2.
  assert (E1 : variance k1 = var ∧ lengthscale k1 = [l]).
  { unfold init in H1. simpl in H1. by injection H1 as <-. }
  assert (E2 : variance k2 = var ∧ lengthscale k2 = replicate Dx l).
  { unfold init in H2. simpl in H2.
    rewrite length_replicate, decide_True in H2 by done. simpl in H2.
    unfold _set_params in H2. simpl in H2.
    rewrite length_replicate, decide_True in H2 by lia.
    by injection H2 as <-. }
  destruct E1 as [Ev1 El1], E2 as [Ev2 El2].
  unfold K. simpl.
  rewrite (scaled_dist_eq k1 Dx), (scaled_dist_eq k2 Dx); try done.
  - rewrite Ev1, Ev2, El1, El2.
    assert (E : (λ x, (λ y, res_get NaN (rowdist [l] x y)) <$> X2) <$> X =
                (λ x, (λ y, res_get NaN (rowdist (replicate Dx l) x y))
                        <$> X2) <$> X); [|by rewrite E].
    apply list_fmap_ext. intros i x Hx. simpl.
    apply list_fmap_ext. intros j y Hy. simpl.
    rewrite Forall_lookup in HX. rewrite Forall_lookup in HX2.
    rewrite <- (HX i x Hx). rewrite rowdist_replicate; [done|].
    by rewrite (HX i x Hx), (HX2 j y Hy).
  - rewrite El2, length_replicate. by left.
  - rewrite El1. right. by right.
Qed.

Lemma K_isotropic_as_ARD_witness :
  K (Exponential 2 false 2 "exp" (Fin 1) [Fin 3])
    [[Fin 0; Fin 1]] (Some [[Fin 2; Fin 5]]) [[Fin 0]] =
  K (Exponential 2 true 3 "exp_ARD" (Fin 1) [Fin 3; Fin 3])
    [[Fin 0; Fin 1]] (Some [[Fin 2; Fin 5]]) [[Fin 0]].
Proof.
  apply (K_isotropic_as_ARD (Fin 1) (Fin 3) 2%nat).
  - reflexivity.
  - reflexivity.
  - repeat (apply Forall_cons; split; [reflexivity|]). apply Forall_nil_2.
  - repeat (apply Forall_cons; split; [reflexivity|]). apply Forall_nil_2.
Defined.

(** ** The range of the covariance *)








(** ** Data that does not fit the lengthscales *)

Lemma bvec_mismatch {A B C} (f : A → B → C) (a : list A) (b : list B) :
  ¬ bcompat (length a) (length b) → bvec f a b = Raise ValueError.
Proof.
  intros H. unfold bvec. rewrite decide_False by (intros E; apply H; by left).
  destruct a as [|x [|x' a]], b as [|y [|y' b]]; try reflexivity;
    exfalso; apply H; unfold bcompat; simpl; auto.
Qed.

Lemma scaled_dist_mismatch (k : exponential) (x : vec) (X : mat) :
  Forall (λ r, length r = length x) X →
  ¬ bcompat (length x) (length (lengthscale k)) →
  scaled_dist k (x :: X) (x :: X) = Raise ValueError.
Proof.
  intros HX Hc. unfold scaled_dist.
  rewrite (outer_sub_eq (length x)) by by constructor.
  rewrite bind_Ok_l. unfold tvec. rewrite !fmap_cons.
  cbn [mapM]. rewrite bvec_mismatch; [reflexivity|].
  rewrite length_zip_with.
  by replace (length x `min` length x)%nat with (length x) by lia.
Qed.

(** X10.  Without [X2], on data with at least one row whose number of columns is
    neither 1 nor the number of lengthscales (of which there is not just
    one), [K], [dK_dtheta] and [dK_dX] raise [ValueError]. *)
Theorem dimension_mismatch (k : exponential) (x : vec) (X partial T : mat)
    (t : vec) :
  Forall (λ r, length r = length x) X →
  ¬ bcompat (length x) (length (lengthscale k)) →
  K k (x :: X) None T = Raise ValueError ∧
  dK_dtheta k partial (x :: X) None t = Raise ValueError ∧
  dK_dX k partial (x :: X) None T = Raise ValueError.
Proof.
  intros HX Hc.
  pose proof (scaled_dist_mismatch k x X HX Hc) as H.
  unfold K, dK_dtheta, dK_dX, dK_dX_terms. cbn [default].
  by rewrite H.
Qed.

Lemma dimension_mismatch_witness :
  let k := Exponential 3 true 4 "exp_ARD" (Fin 1) [Fin 1; Fin 1; Fin 1] in
  K k [[Fin 0; Fin 1]] None [[Fin 0]] = Raise ValueError ∧
  dK_dtheta k [[Fin 1]] [[Fin 0; Fin 1]] None [Fin 0; Fin 0; Fin 0; Fin 0]
    = Raise ValueError ∧
  dK_dX k [[Fin 1]] [[Fin 0; Fin 1]] None [[Fin 0]] = Raise ValueError.
Proof.
  apply (dimension_mismatch
           (Exponential 3 true 4 "exp_ARD" (Fin 1) [Fin 1; Fin 1; Fin 1])
           [Fin 0; Fin 1] []).
  - apply Forall_nil_2.
  - unfold bcompat. simpl. lia.
Defined.

(** ** The gradient with respect to the parameters, without ARD *)

Lemma zip_with_outer {A B C D E} (f : C → D → E) (g : A → B → C)
    (h : A → B → D) (X : list A) (X2 : list B) :
  zip_with (zip_with f) ((λ x, g x <$> X2) <$> X) ((λ x, h x <$> X2) <$> X)
    = (λ x, (λ y, f (g x y) (h x y)) <$> X2) <$> X.
Proof.
  induction X as [|x X IH]; [done|]. rewrite !fmap_cons. simpl.
  rewrite IH. f_equal. clear IH.
  induction X2 as [|y X2 IH]; [done|]. rewrite !fmap_cons. simpl.
  by rewrite IH.
Qed.

(** Without ARD the gradient is two additions: the sums over the pairs of
    rows, to entries 0 and 1 of the target. *)
Lemma dK_dtheta_eq (k : exponential) (Dx : nat) (partial X X2 : mat)
    (target : vec) :
  ARD k = false →
  Forall (λ r, length r = Dx) X → Forall (λ r, length r = Dx) X2 →
  bcompat Dx (length (lengthscale k)) →
  is_mat (length X) (length X2) partial →
  dK_dtheta k partial X (Some X2) target =
    (target' ← add_at target 0 (pair_sum (dvar_pair k) X X2 partial);
     add_at target' 1 (pair_sum (dl_pair k) X X2 partial)).
Proof.
  intros HA HX HX2 Hc Hp. unfold dK_dtheta, pair_sum, dl_partial.
  cbv zeta. change (default X (Some X2)) with X2.
  rewrite (scaled_dist_eq k Dx), (dist2M_eq k Dx) by done.
  rewrite !bind_Ok_l, HA.
  rewrite (outer_fmap inv_guard
             (λ x y, res_get NaN (rowdist (lengthscale k) x y))).
  rewrite (outer_fmap (λ d, fexp (fneg d))
             (λ x y, res_get NaN (rowdist (lengthscale k) x y))).
  rewrite !zip_with_outer.
  rewrite !(bmat_same fmul (length X) (length X2));
    [|apply is_mat_outer|done|apply is_mat_outer|done].
  by destruct target as [|t0 [|t1 rest]].
Qed.

(** X11.  Without ARD, on a target with at least two entries, [dK_dtheta] adds
    the sum over the pairs of [exp(-r)*partial] to entry 0, the sum of
    [dl*partial] to entry 1, and leaves the other entries as they were. *)
Theorem dK_dtheta_frame (k : exponential) (Dx : nat) (partial X X2 : mat)
    (t0 t1 : num) (rest : vec) :
  ARD k = false →
  Forall (λ r, length r = Dx) X → Forall (λ r, length r = Dx) X2 →
  bcompat Dx (length (lengthscale k)) →
  is_mat (length X) (length X2) partial →
  dK_dtheta k partial X (Some X2) (t0 :: t1 :: rest) =
    Ok (fadd t0 (pair_sum (dvar_pair k) X X2 partial)
        :: fadd t1 (pair_sum (dl_pair k) X X2 partial) :: rest).
Proof.
  intros HA HX HX2 Hc Hp. by rewrite (dK_dtheta_eq k Dx).
Qed.

Lemma dK_dtheta_frame_witness :
  let k := Exponential 1 false 2 "exp" (Fin 2) [Fin 1] in
  let X := [[Fin 0]; [Fin 1]] in
  let X2 := [[Fin 3]] in
  let partial := [[Fin 1]; [Fin 1]] in
  dK_dtheta k partial X (Some X2) [Fin 0; Fin 0; Fin 9] =
    Ok [fadd (Fin 0) (pair_sum (dvar_pair k) X X2 partial);
        fadd (Fin 0) (pair_sum (dl_pair k) X X2 partial); Fin 9].
Proof.
  apply (dK_dtheta_frame (Exponential 1 false 2 "exp" (Fin 2) [Fin 1])
           1%nat).
  - reflexivity.
  - repeat (apply Forall_cons; split; [reflexivity|]). apply Forall_nil_2.
  - repeat (apply Forall_cons; split; [reflexivity|]). apply Forall_nil_2.
  - by left.
  - split; [reflexivity|].
    repeat (apply Forall_cons; split; [reflexivity|]). apply Forall_nil_2.
Defined.

(** X12.  A target with fewer than two entries makes [dK_dtheta] raise
    [IndexError] (at [target[0]] when it is empty, at [target[1]]
    otherwise), and an empty one does the same to [dKdiag_dtheta]. *)
Theorem gradient_short_target (k : exponential) (Dx : nat)
    (partial X X2 : mat) (target : vec) :
  ARD k = false →
  Forall (λ r, length r = Dx) X → Forall (λ r, length r = Dx) X2 →
  bcompat Dx (length (lengthscale k)) →
  is_mat (length X) (length X2) partial →
  (length target < 2)%nat →
  dK_dtheta k partial X (Some X2) target = Raise IndexError ∧
  dKdiag_dtheta k partial X [] = Raise IndexError.
Proof.
  intros HA HX HX2 Hc Hp Ht. split; [|reflexivity].
  rewrite (dK_dtheta_eq k Dx) by done.
  destruct target as [|t0 [|t1 rest]]; [reflexivity|reflexivity|].
  simpl in Ht. lia.
Qed.

Lemma gradient_short_target_witness :
  let k := Exponential 1 false 2 "exp" (Fin 2) [Fin 1] in
  dK_dtheta k [[Fin 1]] [[Fin 0]] (Some [[Fin 3]]) [Fin 0]
    = Raise IndexError ∧
  dKdiag_dtheta k [[Fin 1]] [[Fin 0]] [] = Raise IndexError.
Proof.
  apply (gradient_short_target
           (Exponential 1 false 2 "exp" (Fin 2) [Fin 1]) 1%nat).
  - reflexivity.
  - repeat (apply Forall_cons; split; [reflexivity|]). apply Forall_nil_2.
  - repeat (apply Forall_cons; split; [reflexivity|]). apply Forall_nil_2.
  - by left.
  - split; [reflexivity|].
    repeat (apply Forall_cons; split; [reflexivity|]). apply Forall_nil_2.
  - simpl. lia.
Defined.

(** ** Basis functions without their derivatives *)

(** A loop whose body raises at its iteration [m], after iterations that
    return. *)
Lemma for_range_raise {St} (body : nat → St → res St) (start count m : nat)
    (s : St) (e : exn) :
  (m < count)%nat →
  (∀ i s, (start <= i < start + m)%nat → ∃ s', body i s = Ok s') →
  (∀ s, body (start + m)%nat s = Raise e) →
  for_range body start count s = Raise e.
Proof.
  revert start count s.
  induction m as [|m IH]; intros start count s Hm Hok Hr.
  - destruct count as [|c]; [lia|]. simpl.
    pose proof (Hr s) as H. rewrite Nat.add_0_r in H. by rewrite H.
  - destruct count as [|c]; [lia|]. simpl.
    destruct (Hok start s) as [s1 H1]; [lia|]. rewrite H1. simpl.
    apply (IH (S start) c s1); [lia| |].
    + intros i s2 Hi. apply Hok. lia.
    + intros s2. replace (S start + m)%nat with (start + S m)%nat by lia.
      apply Hr.
Qed.

Lemma bind_Raise {A B} (m : res A) (f : A → res B) (e : exn) :
  m = Raise e → m ≫= f = Raise e.
Proof. by intros ->. Qed.

Section Gram_errors.
Variable quad : (num → num) → num → num → num.

(** X14.  With fewer derivatives in [F1] than functions in [F], [Gram_matrix]
    raises [IndexError]: the first row of the loop reaches the function
    that has no derivative. *)
Theorem Gram_matrix_missing_derivative (k : exponential)
    (F F1 : list (num → num)) (lower upper : num) :
  D k = 1%Z → kernel_wf k → (length F1 < length F)%nat →
  Gram_matrix quad k F F1 lower upper = Raise IndexError.
Proof.
  intros HD Hwf HF. destruct (kernel_wf_D1 k Hwf HD) as [l Hl].
  unfold Gram_matrix. rewrite decide_True by done.
  apply bind_Raise. unfold Gram_loop. cbv zeta.
  destruct (lookup_lt_is_Some_2 F 0) as [f0 Hf0]; [lia|].
  remember (length F) as n eqn:Hn.
  destruct n as [|n]; [lia|]. cbn [for_range].
  apply bind_Raise.
  apply (for_range_raise _ 0 (S n - 0) (length F1)); [lia| |].
  - intros j G Hj. unfold Gram_entry.
    destruct (lookup_lt_is_Some_2 F j) as [fj Hfj]; [lia|].
    destruct (lookup_lt_is_Some_2 F1 0) as [g0 Hg0]; [lia|].
    destruct (lookup_lt_is_Some_2 F1 j) as [gj Hgj]; [lia|].
    rewrite Hf0, Hg0, Hfj, Hgj, Hl. by eexists.
  - intros G. cbn [Nat.add]. unfold Gram_entry.
    destruct (lookup_lt_is_Some_2 F (length F1)) as [fj Hfj]; [lia|].
    rewrite Hf0, Hfj, (lookup_ge_None_2 F1 (length F1)) by lia.
    by destruct (F1 !! 0%nat).
Qed.
End Gram_errors.

Lemma Gram_matrix_missing_derivative_witness :
  Gram_matrix (λ f a b, f a) (Exponential 1 false 2 "exp" (Fin 1) [Fin 1])
    [λ x, x; λ x, fmul x x] [λ _, Fin 1] (Fin 0) (Fin 1) = Raise IndexError.
Proof.
  apply Gram_matrix_missing_derivative.
  - reflexivity.
  - split; reflexivity.
  - simpl. lia.
Defined.

(** ** Setting the parameters of the model *)

Lemma concat_chunks (q n : nat) (v : vec) :
  length v = (n * q)%nat → concat (chunks q n v) = v.
Proof.
  revert v. induction n as [|n IH]; intros v H; simpl.
  - by destruct v.
  - rewrite IH; [apply take_drop|]. rewrite length_drop. simpl in H. lia.
Qed.

Lemma is_mat_chunks (q n : nat) (v : vec) :
  length v = (n * q)%nat → is_mat n q (chunks q n v).
Proof.
  revert v. induction n as [|n IH]; intros v H; simpl.
  - split; [done|constructor].
  - destruct (IH (drop q v)) as [Hn Hr].
    { rewrite length_drop. simpl in H. lia. }
    split; [simpl; by rewrite Hn|].
    constructor; [|exact Hr]. rewrite length_take. simpl in H. lia.
Qed.

Section GPLVM_set_properties.
Context {kern_t : Type}.
Variable GP_regression_set_params : GPLVM kern_t → vec → res (GPLVM kern_t).
Variable names_t : kern_t → list string.
Variable params_t : kern_t → vec.

(** X15.  [_set_params] splits its argument: the first [N*Q] entries become the
    rows of the new [X] (entry [n*Q+q] is [X[n,q]], the position
    [_get_params] gives it), and the base model receives the entries that
    follow them, with the new [X] in place. *)
Theorem GPLVM_set_params_split (m : GPLVM kern_t) (x : vec) (n q : nat) :
  is_mat (N _ m) (Q _ m) (X _ m) →
  (N _ m * Q _ m <= length x)%nat →
  (n < N _ m)%nat → (q < Q _ m)%nat →
  ∃ X', is_mat (N _ m) (Q _ m) X' ∧
        flatten X' = take (N _ m * Q _ m) x ∧
        mget X' n q = x !! (n * Q _ m + q)%nat ∧
        GPLVM_set_params _ GP_regression_set_params m x =
          GP_regression_set_params
            (Build_GPLVM _ (N _ m) (Q _ m) X' (kern _ m))
            (drop (N _ m * Q _ m) x).
Proof.
  intros [HN HX] Hx Hn Hq.
  set (v := take (N _ m * Q _ m) x).
  assert (Hv : length v = (N _ m * Q _ m)%nat).
  { unfold v. rewrite length_take. lia. }
  pose proof (is_mat_chunks (Q _ m) (N _ m) v Hv) as Hm.
  pose proof (concat_chunks (Q _ m) (N _ m) v Hv) as Hc.
  exists (chunks (Q _ m) (N _ m) v). split; [exact Hm|].
  split; [exact Hc|]. split.
  - destruct Hm as [_ Hr].
    rewrite <- (concat_lookup_uniform _ (Q _ m)) by done.
    rewrite Hc. unfold v. apply lookup_take_lt. nia.
  - unfold GPLVM_set_params, flatten.
    rewrite (length_concat_uniform _ (Q _ m)) by done. rewrite HN.
    fold v. unfold reshape. rewrite decide_True by done.
    rewrite bind_Ok_l. cbv zeta. by rewrite Hc, Hv.
Qed.

(** X16.  With fewer entries than [X] has, [_set_params] raises [ValueError] at
    the reshape; the base model's [_set_params] is not reached. *)
Theorem GPLVM_set_params_short (m : GPLVM kern_t) (x : vec) :
  is_mat (N _ m) (Q _ m) (X _ m) →
  (length x < N _ m * Q _ m)%nat →
  GPLVM_set_params _ GP_regression_set_params m x = Raise ValueError.
Proof.
  intros [HN HX] Hx. unfold GPLVM_set_params, flatten.
  rewrite (length_concat_uniform _ (Q _ m)) by done. rewrite HN.
  unfold reshape. rewrite decide_False; [reflexivity|].
  rewrite length_take. lia.
Qed.

(** X17.  The names and the values have the same number of latent entries,
    [N*Q], before those of the kernel. *)
Theorem GPLVM_param_count (m : GPLVM kern_t) :
  is_mat (N _ m) (Q _ m) (X _ m) →
  length (GPLVM_get_param_names _ names_t m)
    = (N _ m * Q _ m + length (names_t (kern _ m)))%nat ∧
  length (GPLVM_get_params _ params_t m)
    = (N _ m * Q _ m + length (params_t (kern _ m)))%nat.
Proof.
  intros [HN HX]. unfold GPLVM_get_param_names, GPLVM_get_params, flatten.
  rewrite !length_app.
  rewrite (length_concat_uniform _ (N _ m)) by apply X_names_rows.
  rewrite (length_concat_uniform _ (Q _ m)) by done.
  rewrite length_fmap, length_seq, HN. lia.
Qed.

(** X18.  With one observation or one latent dimension the two orders agree:
    the name at the position of [X[n,q]] in [_get_params] is [X_n_q]. *)
Theorem GPLVM_single_axis_aligned (m : GPLVM kern_t) (n q : nat) :
  N _ m = 1%nat ∨ Q _ m = 1%nat →
  is_mat (N _ m) (Q _ m) (X _ m) →
  (n < N _ m)%nat → (q < Q _ m)%nat →
  GPLVM_get_param_names _ names_t m !! (n * Q _ m + q)%nat
    = Some (X_name n q) ∧
  GPLVM_get_params _ params_t m !! (n * Q _ m + q)%nat = mget (X _ m) n q.
Proof.
  intros H1 Hm Hn Hq. split; [|by apply GPLVM_params_lookup].
  replace (n * Q _ m + q)%nat with (q * N _ m + n)%nat by (destruct H1; nia).
  by apply GPLVM_names_lookup.
Qed.
End GPLVM_set_properties.

Lemma GPLVM_set_params_split_witness :
  ∃ X', is_mat 2 2 X' ∧
        flatten X' = take 4 [Fin 5; Fin 6; Fin 7; Fin 8; Fin 9] ∧
        mget X' 1 0 = [Fin 5; Fin 6; Fin 7; Fin 8; Fin 9] !! 2%nat ∧
        GPLVM_set_params unit (λ m _, Ok m) example_model
          [Fin 5; Fin 6; Fin 7; Fin 8; Fin 9] =
          (λ m _, Ok m) (Build_GPLVM unit 2 2 X' tt)
            (drop 4 [Fin 5; Fin 6; Fin 7; Fin 8; Fin 9]).
Proof.
  apply (GPLVM_set_params_split (λ m _, Ok m) example_model
           [Fin 5; Fin 6; Fin 7; Fin 8; Fin 9] 1%nat 0%nat).
  - split; [reflexivity|].
    repeat (apply Forall_cons; split; [reflexivity|]). apply Forall_nil_2.
  - simpl. lia.
  - simpl. lia.
  - simpl. lia.
Defined.

Lemma GPLVM_set_params_short_witness :
  GPLVM_set_params unit (λ m _, Ok m) example_model [Fin 5; Fin 6]
    = Raise ValueError.
Proof.
  apply (GPLVM_set_params_short (λ m _, Ok m) example_model).
  - split; [reflexivity|].
    repeat (apply Forall_cons; split; [reflexivity|]). apply Forall_nil_2.
  - simpl. lia.
Defined.

Lemma GPLVM_param_count_witness :
  length (GPLVM_get_param_names unit (λ _, []) example_model)
    = (2 * 2 + 0)%nat ∧
  length (GPLVM_get_params unit (λ _, []) example_model) = (2 * 2 + 0)%nat.
Proof.
  apply (GPLVM_param_count (λ _, []) (λ _, []) example_model).
  split; [reflexivity|].
  repeat (apply Forall_cons; split; [reflexivity|]). apply Forall_nil_2.
Defined.

Lemma GPLVM_single_axis_aligned_witness :
  let m := Build_GPLVM unit 3 1 [[Fin 1]; [Fin 2]; [Fin 3]] tt in
  GPLVM_get_param_names unit (λ _, []) m !! (2 * 1 + 0)%nat
    = Some (X_name 2 0) ∧
  GPLVM_get_params unit (λ _, []) m !! (2 * 1 + 0)%nat
    = mget [[Fin 1]; [Fin 2]; [Fin 3]] 2 0.
Proof.
  apply (GPLVM_single_axis_aligned (λ _, []) (λ _, [])
           (Build_GPLVM unit 3 1 [[Fin 1]; [Fin 2]; [Fin 3]] tt) 2%nat 0%nat).
  - by right.
  - split; [reflexivity|].
    repeat (apply Forall_cons; split; [reflexivity|]). apply Forall_nil_2.
  - simpl. lia.
  - simpl. lia.
Defined.

(** ** The gradient with respect to the points *)

Lemma length_bvec_l {A B C} (f : A → B → C) (a : list A) (b : list B) :
  length b = length a ∨ length b = 1%nat →
  length (res_get [] (bvec f a b)) = length a.
Proof.
  intros H. unfold bvec. case_decide as E.
  - simpl. rewrite length_zip_with. lia.
  - destruct H as [H|H]; [congruence|].
    destruct b as [|y [|??]]; try discriminate H.
    destruct a as [|x [|??]]; simpl; rewrite ?length_fmap; reflexivity.
Qed.

Lemma Forall2d_outer {A B C} (P : C → Prop) (g : A → B → C) (X : list A)
    (X2 : list B) :
  (∀ x y, x ∈ X → y ∈ X2 → P (g x y)) →
  Forall (Forall P) ((λ x, g x <$> X2) <$> X).
Proof.
  intros H. apply Forall_fmap, Forall_forall. intros x Hx. simpl.
  apply Forall_fmap, Forall_forall. intros y Hy. by apply H.
Qed.

Lemma Forall_omap_col {A} (P : A → Prop) (M : list (list A)) (j : nat) :
  Forall (Forall P) M → Forall P (omap (.!! j) M).
Proof.
  induction 1 as [|r M Hr HM IH]; [constructor|]. simpl.
  destruct (r !! j) as [y|] eqn:Hy; simpl; [|exact IH].
  constructor; [|exact IH]. rewrite Forall_lookup in Hr. by apply (Hr j).
Qed.

Lemma Forall2d_transpose {A} (P : A → Prop) (M : list (list A)) :
  Forall (Forall P) M → Forall (Forall P) (transpose M).
Proof.
  intros H. unfold transpose. apply Forall_fmap, Forall_forall.
  intros j _. simpl. by apply Forall_omap_col.
Qed.

Lemma Forall2d_zip_with {A B C} (P : A → Prop) (Q : C → Prop)
    (f : A → B → C) (M : list (list A)) (M' : list (list B)) :
  (∀ a b, P a → Q (f a b)) → Forall (Forall P) M →
  Forall (Forall Q) (zip_with (zip_with f) M M').
Proof.
  intros Hf HM. revert M'.
  induction HM as [|r M Hr HM IH]; intros [|s M']; simpl;
    try constructor; [|apply IH].
  revert s. induction Hr as [|a r Ha Hr IHr]; intros [|b s]; simpl;
    constructor; [by apply Hf|apply IHr].
Qed.

Lemma is_mat_foldl_madd (n m : nat) (acc : mat) (l : list mat) :
  is_mat n m acc → Forall (is_mat n m) l → is_mat n m (foldl madd acc l).
Proof.
  intros Ha Hl. revert acc Ha.
  induction Hl as [|r l Hr Hl IH]; intros acc Ha; simpl; [done|].
  apply IH. by apply (is_mat_zip_with fadd).
Qed.

(** X19.  For [N >= 1] points of [X] and [M >= 1] points of [X2] in [D]
    columns, one or [D] lengthscales, a [partial] of shape N x M and a
    target of shape N x D, [dK_dX] returns, and leaves a target of the same
    shape. *)
Theorem dK_dX_shape (k : exponential) (Dx : nat) (partial X X2 target : mat) :
  Forall (λ r, length r = Dx) X → Forall (λ r, length r = Dx) X2 →
  (0 < length X)%nat → (0 < length X2)%nat →
  length (lengthscale k) = Dx ∨ length (lengthscale k) = 1%nat →
  is_mat (length X) (length X2) partial →
  is_mat (length X) Dx target →
  ∃ T', dK_dX k partial X (Some X2) target = Ok T' ∧
        is_mat (length X) Dx T'.
Proof.
  intros HX HX2 HN HM Hls Hp Ht.
  assert (Hc : bcompat Dx (length (lengthscale k))).
  { destruct Hls as [->| ->]; [by left|right; by right]. }
  unfold dK_dX, dK_dX_terms. cbv zeta.
  change (default X (Some X2)) with X2.
  rewrite (scaled_dist_eq k Dx), bind_Ok_l by done.
  rewrite (outer_sub_eq Dx), bind_Ok_l by done.
  rewrite (dX_quot_eq k Dx), bind_Ok_l by done.
  rewrite !zip_with_outer.
  match goal with
  | |- context [transpose (?f <$> X)] => set (inner := f <$> X)
  end.
  assert (Hi1 : is_mat (length X) (length X2) inner) by apply is_mat_outer.
  assert (Hi2 : Forall (Forall (λ v : vec, length v = Dx)) inner).
  { apply (Forall2d_outer (λ v : vec, length v = Dx)). intros x y Hx Hy.
    rewrite Forall_forall in HX. rewrite Forall_forall in HX2.
    rewrite !length_fmap, length_bvec_l, length_zip_with.
    - rewrite (HX x), (HX2 y) by done. lia.
    - rewrite length_fmap, length_zip_with, (HX x), (HX2 y) by done.
      destruct Hls as [->| ->]; [left; lia|by right]. }
  clearbody inner.
  rewrite (bmat_same _ (length X2) (length X));
    [|by apply is_mat_fmap, is_mat_transpose
     |by apply is_mat_transpose].
  rewrite bind_Ok_l.
  match goal with
  | |- context [sum_axis0 madd [] ?t] => set (terms := t)
  end.
  assert (Ht1 : is_mat (length X2) (length X) terms).
  { apply is_mat_zip_with; [|by apply is_mat_transpose].
    by apply is_mat_fmap, is_mat_transpose. }
  assert (Ht2 : Forall (Forall (λ v : vec, length v = Dx)) terms).
  { apply (Forall2d_zip_with (λ v : vec, length v = Dx)).
    - intros a b Ha. by rewrite length_fmap.
    - apply Forall_fmap.
      eapply Forall_impl; [apply Forall2d_transpose, Hi2|].
      intros r Hr. simpl. apply Forall_fmap.
      eapply Forall_impl; [exact Hr|].
      intros v Hv. simpl. by rewrite length_fmap. }
  clearbody terms.
  assert (Hrows : Forall (is_mat (length X) Dx) terms).
  { destruct Ht1 as [_ Hl]. rewrite Forall_forall in Hl.
    rewrite Forall_forall in Ht2. apply Forall_forall. intros r Hr.
    split; [by apply Hl|by apply Ht2]. }
  assert (Hsum : is_mat (length X) Dx (sum_axis0 madd [] terms)).
  { destruct Ht1 as [Hlen _].
    destruct Hrows as [|r0 rest H0 Hrest]; [simpl in Hlen; lia|].
    simpl. by apply is_mat_foldl_madd. }
  eexists. split.
  - by apply (bmat_out_same _ (length X) Dx).
  - by apply is_mat_zip_with.
Qed.

Lemma dK_dX_shape_witness :
  let k := Exponential 1 false 2 "exp" (Fin 2) [Fin 1] in
  ∃ T', dK_dX k [[Fin 1]; [Fin 1]] [[Fin 0]; [Fin 1]] (Some [[Fin 3]])
          [[Fin 0]; [Fin 0]] = Ok T' ∧
        is_mat 2 1 T'.
Proof.
  apply (dK_dX_shape (Exponential 1 false 2 "exp" (Fin 2) [Fin 1]) 1%nat
           [[Fin 1]; [Fin 1]] [[Fin 0]; [Fin 1]] [[Fin 3]]
           [[Fin 0]; [Fin 0]]).
  - repeat (apply Forall_cons; split; [reflexivity|]). apply Forall_nil_2.
  - repeat (apply Forall_cons; split; [reflexivity|]). apply Forall_nil_2.
  - simpl. lia.
  - simpl. lia.
  - by left.
  - split; [reflexivity|].
    repeat (apply Forall_cons; split; [reflexivity|]). apply Forall_nil_2.
  - split; [reflexivity|].
    repeat (apply Forall_cons; split; [reflexivity|]). apply Forall_nil_2.
Defined.
